(** * Triplet seed finder (Acts/Seeding/Seedfinder.ipp)

    A shallow embedding of [Seedfinder::Seedfinder], [initState],
    [createSeedsForRegion] and [transformCoordinates].

    Numbers.  The C++ [float] and [double] quantities are modelled as real
    numbers: every arithmetic operation is exact and comparisons are those
    of the ordered field; rounding is not modelled.  The one place where the
    source compares a quotient whose divisor it has not tested, the ratio
    [cotTheta] of the doublet loops, is written with [quotient], which
    says what the float is at a zero divisor: infinite, or not a number.
    The other quotients are real quotients; where a property depends on
    what a quotient is at a zero divisor, the divisor is proved non-zero
    ([tripletCandidate]) or the statement carries the hypothesis that it
    is.  Conversions [float -> size_t] are truncations, written with
    [Int_part].

    Pointers.  An internal spacepoint is immutable once built, so owning
    and borrowing pointers to it are modelled by the value itself; an
    entry of the input range is an [option] whose [None] is [nullptr]. *)

From Stdlib Require Import Reals Lra Lia ZArith.
From stdpp Require Import base decidable option list sorting gmap.

Open Scope R_scope.

(** ** Decidable comparisons on the reals *)

#[global] Instance Rlt_decision (x y : R) : Decision (x < y) := Rlt_dec x y.
#[global] Instance Rgt_decision (x y : R) : Decision (x > y) := Rgt_dec x y.
#[global] Instance Rle_decision (x y : R) : Decision (x <= y) := Rle_dec x y.
#[global] Instance Rge_decision (x y : R) : Decision (x >= y) := Rge_dec x y.
#[global] Instance Req_decision : EqDecision R := Req_dec_T.

(** [size_t n = f;] for a non-negative [f]: the fractional part is cut. *)
Definition to_size_t (f : R) : nat := Z.to_nat (Int_part f).

(** ** The external spacepoint: the accessor interface of the template
    parameter [external_spacepoint_t]. *)

Class SpacePoint (T : Type) := {
  sp_x : T -> R;
  sp_y : T -> R;
  sp_z : T -> R
}.

(** ** Data model *)

Section DataModel.
Context {T : Type}.

(** Modelled from the spec: [InternalSpacePoint], which Seedfinder.ipp
    uses through its accessors and does not define.  It stores the
    position translated by the beam position, the radius, the azimuth and
    the two covariance contributions, and keeps a reference to the
    external spacepoint it was built from. *)
Record InternalSpacePoint := {
  isp_x : R;
  isp_y : R;
  isp_z : R;
  radius : R;
  phi : R;
  covr : R;
  covz : R;
  isp_sp : T
}.

(** The record filled by [transformCoordinates]. *)
Record LinCircle := {
  Zo : R;
  cotTheta : R;
  iDeltaR : R;
  Er : R;
  U : R;
  V : R
}.

End DataModel.

Arguments InternalSpacePoint : clear implicits.

(** ** transformCoordinates *)

Section TransformCoordinates.
Context {T : Type}.

(** [int bottomFactor = 1 * (int(!bottom)) - 1 * (int(bottom));] *)
Definition bottomFactor (bottom : bool) : Z :=
  (1 * Z.b2z (negb bottom) - 1 * Z.b2z bottom)%Z.

(** The body of the loop over [vec], for one partner [sp].  The source
    tests neither [rM] nor [deltaX * deltaX + deltaY * deltaY] before it
    divides by them; the properties of the record that depend on these
    quotients are stated for non-zero divisors. *)
Definition transformOne (spM : InternalSpacePoint T) (bottom : bool)
    (sp : InternalSpacePoint T) : LinCircle :=
  let xM := isp_x spM in
  let yM := isp_y spM in
  let zM := isp_z spM in
  let rM := radius spM in
  let covzM := covz spM in
  let covrM := covr spM in
  let cosPhiM := xM / rM in
  let sinPhiM := yM / rM in
  let deltaX := isp_x sp - xM in
  let deltaY := isp_y sp - yM in
  let deltaZ := isp_z sp - zM in
  let x := deltaX * cosPhiM + deltaY * sinPhiM in
  let y := deltaY * cosPhiM - deltaX * sinPhiM in
  let iDeltaR2 := 1 / (deltaX * deltaX + deltaY * deltaY) in
  let iDeltaR := sqrt iDeltaR2 in
  let cot_theta := deltaZ * iDeltaR * IZR (bottomFactor bottom) in
  {| cotTheta := cot_theta;
     Zo := zM - rM * cot_theta;
     iDeltaR := iDeltaR;
     U := x * iDeltaR2;
     V := y * iDeltaR2;
     Er := ((covzM + covz sp) + (cot_theta * cot_theta) * (covrM + covr sp))
           * iDeltaR2 |}.

(** [transformCoordinates(vec, spM, bottom, linCircleVec)]: one
    [push_back] onto [linCircleVec] per element of [vec]. *)
Fixpoint transformCoordinates (vec : list (InternalSpacePoint T))
    (spM : InternalSpacePoint T) (bottom : bool)
    (linCircleVec : list LinCircle) : list LinCircle :=
  match vec with
  | [] => linCircleVec
  | sp :: rest =>
      transformCoordinates rest spM bottom
        (linCircleVec ++ [transformOne spM bottom sp])
  end.

(** The conformal record as the specification words it. *)
Inductive PartnerKind := TopPartner | BottomPartner.

Definition partnerSign (k : PartnerKind) : R :=
  match k with TopPartner => 1 | BottomPartner => -1 end.

Definition kindOfFlag (bottom : bool) : PartnerKind :=
  if bottom then BottomPartner else TopPartner.

Definition conformalRecord (m : InternalSpacePoint T) (k : PartnerKind)
    (p : InternalSpacePoint T) : LinCircle :=
  let cosPhiM := isp_x m / radius m in
  let sinPhiM := isp_y m / radius m in
  let dx := isp_x p - isp_x m in
  let dy := isp_y p - isp_y m in
  let dz := isp_z p - isp_z m in
  let x' := dx * cosPhiM + dy * sinPhiM in
  let y' := dy * cosPhiM - dx * sinPhiM in
  let iDR2 := 1 / (dx * dx + dy * dy) in
  let iDR := sqrt iDR2 in
  let cot := dz * iDR * partnerSign k in
  {| Zo := isp_z m - radius m * cot;
     cotTheta := cot;
     iDeltaR := iDR;
     Er := ((covz m + covz p) + cot * cot * (covr m + covr p)) * iDR2;
     U := x' * iDR2;
     V := y' * iDR2 |}.

End TransformCoordinates.

(** ** Configuration, seed filter and seeds *)

Section Configuration.
Context {T : Type}.

(** Modelled from the spec: [InternalSeed], which Seedfinder.ipp only
    names: the ordered triple of spacepoints and the z-origin. *)
Record InternalSeed := {
  seed_bottom : InternalSpacePoint T;
  seed_middle : InternalSpacePoint T;
  seed_top : InternalSpacePoint T;
  seed_z : R
}.

(** The two operations of the seed filter the finder calls.  Their bodies
    are a policy of the caller.  [filterSeeds_1SpFixed] receives the
    output slot by reference; here it returns the slot's new content. *)
Record SeedFilter := {
  filterSeeds_2SpFixed :
    InternalSpacePoint T -> InternalSpacePoint T ->
    list (InternalSpacePoint T) -> list R -> list R -> R ->
    list (R * InternalSeed);
  filterSeeds_1SpFixed :
    list (R * InternalSeed) -> list InternalSeed -> list InternalSeed
}.

(** The fields of [SeedfinderConfig] the seed finder reads or writes. *)
Record SeedfinderConfig := {
  seedFilter : SeedFilter;
  minPt : R;
  cotThetaMax : R;
  deltaRMin : R;
  deltaRMax : R;
  impactMax : R;
  sigmaScattering : R;
  collisionRegionMin : R;
  collisionRegionMax : R;
  phiMin : R;
  phiMax : R;
  zMin : R;
  zMax : R;
  rMax : R;
  bFieldInZ : R;
  beamPos : R * R;
  radLengthPerSeed : R;
  zAlign : R;
  rAlign : R;
  sigmaError : R;
  (* derived by the constructor *)
  highland : R;
  maxScatteringAngle2 : R;
  pTPerHelixRadius : R;
  minHelixDiameter2 : R;
  pT2perRadius : R
}.

(** Assignment to the five derived members of [m_config]. *)
Definition setDerived (c : SeedfinderConfig) (h msa2 ptr mhd2 pt2r : R)
    : SeedfinderConfig :=
  {| seedFilter := seedFilter c;
     minPt := minPt c;
     cotThetaMax := cotThetaMax c;
     deltaRMin := deltaRMin c;
     deltaRMax := deltaRMax c;
     impactMax := impactMax c;
     sigmaScattering := sigmaScattering c;
     collisionRegionMin := collisionRegionMin c;
     collisionRegionMax := collisionRegionMax c;
     phiMin := phiMin c;
     phiMax := phiMax c;
     zMin := zMin c;
     zMax := zMax c;
     rMax := rMax c;
     bFieldInZ := bFieldInZ c;
     beamPos := beamPos c;
     radLengthPerSeed := radLengthPerSeed c;
     zAlign := zAlign c;
     rAlign := rAlign c;
     sigmaError := sigmaError c;
     highland := h;
     maxScatteringAngle2 := msa2;
     pTPerHelixRadius := ptr;
     minHelixDiameter2 := mhd2;
     pT2perRadius := pt2r |}.

Record Seedfinder := { m_config : SeedfinderConfig }.

(** What running a C++ constructor can end in: the object, or an exception
    leaving it. *)
Inductive Construction (A : Type) :=
  | Constructed (a : A)
  | Thrown.

(** [Seedfinder::Seedfinder(config)].  The body has no [throw] and calls
    nothing but [sqrt], [log] and [pow]. *)
Definition Seedfinder_new (config : SeedfinderConfig)
    : Construction Seedfinder :=
  let highland :=
    13.6 * sqrt (radLengthPerSeed config)
    * (1 + 0.038 * ln (radLengthPerSeed config)) in
  let maxScatteringAngle := highland / minPt config in
  let maxScatteringAngle2 := maxScatteringAngle * maxScatteringAngle in
  let pTPerHelixRadius := 300 * bFieldInZ config in
  let minHelixDiameter2 := (minPt config * 2 / pTPerHelixRadius) ^ 2 in
  let pT2perRadius := (highland / pTPerHelixRadius) ^ 2 in
  Constructed _
    {| m_config :=
         setDerived config highland maxScatteringAngle2 pTPerHelixRadius
           minHelixDiameter2 pT2perRadius |}.

(** The inconsistencies the specification lists as configuration errors. *)
Definition inconsistentBounds (c : SeedfinderConfig) : Prop :=
  deltaRMin c > deltaRMax c \/ minPt c <= 0
  \/ phiMin c > phiMax c \/ zMin c > zMax c.

End Configuration.

Arguments InternalSeed : clear implicits.
Arguments SeedFilter : clear implicits.
Arguments SeedfinderConfig : clear implicits.
Arguments Seedfinder : clear implicits.
Arguments Constructed {A} a.
Arguments Thrown {A}.

(** ** The binned index *)

Section Grid.
Context {T : Type}.

(** Modelled from the spec: [SpacePointGrid], which Seedfinder.ipp uses
    through [at], [atPosition] and [numLocalBins] and does not define: a
    mapping from the cells of a (phi, z) binning to bins, a bin being a
    vector of internal spacepoints.  [numLocalBins] is the number of cells
    per axis and [globalBin] the cell [atPosition] selects for a (phi, z)
    location; a cell without entry holds the empty bin. *)
Record SpacePointGrid := {
  numLocalBins : nat * nat;
  globalBin : R -> R -> nat;
  bins : gmap nat (list (InternalSpacePoint T))
}.

(** [grid->at(index)] *)
Definition gridAt (g : SpacePointGrid) (index : nat)
    : list (InternalSpacePoint T) :=
  default [] (bins g !! index).

(** [grid->atPosition(loc).push_back(isp)] *)
Definition gridPush (g : SpacePointGrid) (isp : InternalSpacePoint T)
    : SpacePointGrid :=
  let k := globalBin g (phi isp) (isp_z isp) in
  {| numLocalBins := numLocalBins g;
     globalBin := globalBin g;
     bins := <[k := gridAt g k ++ [isp]]> (bins g) |}.

Record SpacePointGridConfig := {
  grid_bFieldInZ : R;
  grid_minPt : R;
  grid_rMax : R;
  grid_zMax : R;
  grid_zMin : R;
  grid_deltaRMax : R;
  grid_cotThetaMax : R
}.

(** The binning [SpacePointGridCreator::createGrid] derives from the grid
    configuration: cells per axis and the cell of a location. *)
Record GridBinning := {
  binning_numLocalBins : nat * nat;
  binning_globalBin : R -> R -> nat
}.

(** Modelled from the spec: [SpacePointGridCreator::createGrid] returns a
    new grid, all of whose bins are empty. *)
Definition createGrid (binning : SpacePointGridConfig -> GridBinning)
    (conf : SpacePointGridConfig) : SpacePointGrid :=
  {| numLocalBins := binning_numLocalBins (binning conf);
     globalBin := binning_globalBin (binning conf);
     bins := ∅ |}.

(** [IBinFinder::findBins(phiBin, zBin, grid)] *)
Record IBinFinder := {
  findBins : nat -> nat -> SpacePointGrid -> list nat
}.

Record SeedfinderState := {
  binnedSP : SpacePointGrid;
  bottomBinFinder : IBinFinder;
  topBinFinder : IBinFinder;
  outputVec : list (list (InternalSeed T))
}.

(** The members of [SeedfinderStateIterator] that [createSeedsForRegion]
    reads. *)
Record SeedfinderStateIterator := {
  currentBin : list (InternalSpacePoint T);
  bottomBinIndices : list nat;
  topBinIndices : list nat;
  outputIndex : nat;
  it_grid : SpacePointGrid
}.

End Grid.

Arguments SpacePointGrid : clear implicits.
Arguments IBinFinder : clear implicits.
Arguments SeedfinderState : clear implicits.
Arguments SeedfinderStateIterator : clear implicits.

(** ** initState *)

(** [std::atan2(y, x)] *)
Definition atan2 (y x : R) : R :=
  if decide (x > 0) then atan (y / x)
  else if decide (x < 0) then
    if decide (y >= 0) then atan (y / x) + PI else atan (y / x) - PI
  else if decide (y > 0) then PI / 2
  else if decide (y < 0) then - PI / 2
  else 0.

(** [Vector2D::norm()] *)
Definition norm2D (v : R * R) : R := sqrt (v.1 * v.1 + v.2 * v.2).

Section InitState.
Context {T : Type} `{SpacePoint T}.

(** Modelled from the spec: the constructor of [InternalSpacePoint]:
    position translated by the beam position, radius [sqrt (x^2 + y^2)]
    and azimuth [atan2 y x] of the translated position, the covariance
    contributions as the covariance tool returned them. *)
Definition makeInternalSpacePoint (sp : T) (globalPos : R * R * R)
    (offsetXY : R * R) (cov : R * R) : InternalSpacePoint T :=
  let x := globalPos.1.1 - offsetXY.1 in
  let y := globalPos.1.2 - offsetXY.2 in
  {| isp_x := x;
     isp_y := y;
     isp_z := globalPos.2;
     radius := sqrt (x * x + y * y);
     phi := atan2 y x;
     covr := cov.1;
     covz := cov.2;
     isp_sp := sp |}.

Variable config : SeedfinderConfig T.
Variable binning : SpacePointGridConfig -> GridBinning.
Variable covTool : T -> R -> R -> R -> R * R.

Definition numRBins : nat := to_size_t (rMax config + norm2D (beamPos config)).

(** The internal spacepoint built from [sp] in the first loop. *)
Definition internalOf (sp : T) : InternalSpacePoint T :=
  let cov := covTool sp (zAlign config) (rAlign config) (sigmaError config) in
  makeInternalSpacePoint sp (sp_x sp, sp_y sp, sp_z sp) (beamPos config) cov.

(** One iteration of the first loop: [*it] is filed into its radius bucket
    or skipped. *)
Definition fillRBin (rBins : list (list (InternalSpacePoint T)))
    (it : option T) : list (list (InternalSpacePoint T)) :=
  match it with
  | None => rBins
  | Some sp =>
      let spX := sp_x sp in
      let spY := sp_y sp in
      let spZ := sp_z sp in
      if decide (spZ > zMax config \/ spZ < zMin config) then rBins
      else
        let spPhi := atan2 spY spX in
        if decide (spPhi > phiMax config \/ spPhi < phiMin config) then rBins
        else
          let isp := internalOf sp in
          let rIndex := to_size_t (radius isp) in
          if decide (numRBins <= rIndex)%nat then rBins
          else alter (fun rbin => rbin ++ [isp]) rIndex rBins
  end.

(** The second loop: every bucket, in index order, is emptied into the
    grid. *)
Definition flushRBins (rBins : list (list (InternalSpacePoint T)))
    (grid : SpacePointGrid T) : SpacePointGrid T :=
  fold_left (fun g rbin => fold_left gridPush rbin g) rBins grid.

Definition initState (spRange : list (option T))
    (bottomBinFinder topBinFinder : IBinFinder T) : SeedfinderState T :=
  let gridConf :=
    {| grid_bFieldInZ := bFieldInZ config;
       grid_minPt := minPt config;
       grid_rMax := rMax config;
       grid_zMax := zMax config;
       grid_zMin := zMin config;
       grid_deltaRMax := deltaRMax config;
       grid_cotThetaMax := cotThetaMax config |} in
  let grid := createGrid binning gridConf in
  let rBins := fold_left fillRBin spRange (replicate numRBins []) in
  let grid := flushRBins rBins grid in
  let numBins := numLocalBins grid in
  {| binnedSP := grid;
     bottomBinFinder := bottomBinFinder;
     topBinFinder := topBinFinder;
     outputVec := replicate (numBins.1 * numBins.2) [] |}.

End InitState.

(** ** createSeedsForRegion *)

(** Arithmetic that keeps the divisors it divided by, in evaluation
    order.  The body of the loop over the top candidates is written in
    it, so that what it divides by can be stated. *)
Record Logged (A : Type) := MkLogged { value : A; divisors : list R }.
Arguments MkLogged {A} value divisors.
Arguments value {A} l.
Arguments divisors {A} l.

#[global] Instance Logged_ret : MRet Logged := fun A a => MkLogged a [].
#[global] Instance Logged_bind : MBind Logged := fun A B k m =>
  let r := k (value m) in MkLogged (value r) (divisors m ++ divisors r).

(** [a / b] *)
Definition divide (a b : R) : Logged R := MkLogged (a / b) [b].

(** The value of the float quotient [a / b] as far as the comparisons of
    the doublet loops can tell: a real number, an infinity (a non-zero
    [a] over a zero [b]), or not a number (zero over zero). *)
Inductive Quotient :=
  | Finite (q : R)
  | Infinite
  | NotANumber.

Definition quotient (a b : R) : Quotient :=
  if decide (b = 0) then
    if decide (a = 0) then NotANumber else Infinite
  else Finite (a / b).

(** How the body of the loop over the top candidates ends for one
    (bottom, top) pair: at one of its [continue] statements, past the
    last test without a [push_back], or with the three [push_back]s. *)
Inductive Verdict :=
  | RejectedScatteringInRegion
  | RejectedZeroDU
  | RejectedHelixDiameter
  | RejectedScatteringAtPt
  | RejectedImpact
  | Accepted (curvature Im : R).

Section CreateSeedsForRegion.
Context {T : Type}.
Variable config : SeedfinderConfig T.

(** The loop over one bottom bin; [break] returns what was collected.
    For an infinite [cotTheta] the test [fabs(cotTheta) > cotThetaMax]
    holds and the candidate is skipped.  For a [cotTheta] that is not a
    number, [zOrigin] is not a number either, none of the three
    comparisons holds, and the candidate is pushed. *)
Fixpoint bottomBinLoop (rM zM : R) (bottomBin : list (InternalSpacePoint T))
    (compatBottomSP : list (InternalSpacePoint T))
    : list (InternalSpacePoint T) :=
  match bottomBin with
  | [] => compatBottomSP
  | spB :: rest =>
      let rB := radius spB in
      let deltaR := rM - rB in
      if decide (deltaR > deltaRMax config) then
        bottomBinLoop rM zM rest compatBottomSP
      else if decide (deltaR < deltaRMin config) then
        compatBottomSP
      else
        match quotient (zM - isp_z spB) deltaR with
        | Infinite => bottomBinLoop rM zM rest compatBottomSP
        | NotANumber => bottomBinLoop rM zM rest (compatBottomSP ++ [spB])
        | Finite cotTheta =>
            if decide (Rabs cotTheta > cotThetaMax config) then
              bottomBinLoop rM zM rest compatBottomSP
            else
              let zOrigin := zM - rM * cotTheta in
              if decide (zOrigin < collisionRegionMin config
                         \/ zOrigin > collisionRegionMax config) then
                bottomBinLoop rM zM rest compatBottomSP
              else
                bottomBinLoop rM zM rest (compatBottomSP ++ [spB])
        end
  end.

(** The loop over one top bin. *)
Fixpoint topBinLoop (rM zM : R) (topBin : list (InternalSpacePoint T))
    (compatTopSP : list (InternalSpacePoint T))
    : list (InternalSpacePoint T) :=
  match topBin with
  | [] => compatTopSP
  | spT :: rest =>
      let rT := radius spT in
      let deltaR := rT - rM in
      if decide (deltaR < deltaRMin config) then
        topBinLoop rM zM rest compatTopSP
      else if decide (deltaR > deltaRMax config) then
        compatTopSP
      else
        match quotient (isp_z spT - zM) deltaR with
        | Infinite => topBinLoop rM zM rest compatTopSP
        | NotANumber => topBinLoop rM zM rest (compatTopSP ++ [spT])
        | Finite cotTheta =>
            if decide (Rabs cotTheta > cotThetaMax config) then
              topBinLoop rM zM rest compatTopSP
            else
              let zOrigin := zM - rM * cotTheta in
              if decide (zOrigin < collisionRegionMin config
                         \/ zOrigin > collisionRegionMax config) then
                topBinLoop rM zM rest compatTopSP
              else
                topBinLoop rM zM rest (compatTopSP ++ [spT])
        end
  end.

(** The loops over [bottomBinIndices] and [topBinIndices]. *)
Definition findCompatBottomSP (grid : SpacePointGrid T)
    (bottomBinIndices : list nat) (spM : InternalSpacePoint T)
    : list (InternalSpacePoint T) :=
  fold_left
    (fun compat bottomBinIndex =>
       bottomBinLoop (radius spM) (isp_z spM) (gridAt grid bottomBinIndex)
         compat)
    bottomBinIndices [].

Definition findCompatTopSP (grid : SpacePointGrid T)
    (topBinIndices : list nat) (spM : InternalSpacePoint T)
    : list (InternalSpacePoint T) :=
  fold_left
    (fun compat topBinIndex =>
       topBinLoop (radius spM) (isp_z spM) (gridAt grid topBinIndex) compat)
    topBinIndices [].

(** [iSinTheta2] and [scatteringInRegion2], set once per bottom. *)
Definition iSinTheta2Of (lb : LinCircle) : R :=
  1 + cotTheta lb * cotTheta lb.

Definition scatteringInRegion2Of (lb : LinCircle) : R :=
  maxScatteringAngle2 config * iSinTheta2Of lb
  * (sigmaScattering config * sigmaScattering config).

(** [error2], [deltaCotTheta2] and [dCotThetaMinusError2] of a pair. *)
Definition error2Of (covrM covzM : R) (lb lt : LinCircle) : R :=
  Er lt + Er lb
  + 2 * (cotTheta lb * cotTheta lt * covrM + covzM)
    * iDeltaR lb * iDeltaR lt.

Definition deltaCotTheta2Of (lb lt : LinCircle) : R :=
  (cotTheta lb - cotTheta lt) * (cotTheta lb - cotTheta lt).

Definition dCotThetaMinusError2Of (covrM covzM : R) (lb lt : LinCircle) : R :=
  let error2 := error2Of covrM covzM lb lt in
  let deltaCotTheta := Rabs (cotTheta lb - cotTheta lt) in
  let error := sqrt error2 in
  deltaCotTheta2Of lb lt + error2 - 2 * deltaCotTheta * error.

(** The body of the loop over the top candidates, for the pair whose
    records are [lb] and [lt].  [dCotThetaMinusError2] is assigned in the
    source only where [deltaCotTheta2 - error2 > 0], and read only under
    the same test. *)
Definition tripletCandidate (rM covrM covzM : R) (lb lt : LinCircle)
    : Logged Verdict :=
  let Vb := V lb in
  let Ub := U lb in
  let iSinTheta2 := iSinTheta2Of lb in
  let scatteringInRegion2 := scatteringInRegion2Of lb in
  let error2 := error2Of covrM covzM lb lt in
  let deltaCotTheta2 := deltaCotTheta2Of lb lt in
  let dCotThetaMinusError2 := dCotThetaMinusError2Of covrM covzM lb lt in
  if decide (deltaCotTheta2 - error2 > 0
             /\ dCotThetaMinusError2 > scatteringInRegion2) then
    mret RejectedScatteringInRegion
  else
    let dU := U lt - Ub in
    if decide (dU = 0) then mret RejectedZeroDU
    else
      A ← divide (V lt - Vb) dU;
      let S2 := 1 + A * A in
      let B := Vb - A * Ub in
      let B2 := B * B in
      if decide (S2 < B2 * minHelixDiameter2 config) then
        mret RejectedHelixDiameter
      else
        iHelixDiameter2 ← divide B2 S2;
        let pT2scatter := 4 * iHelixDiameter2 * pT2perRadius config in
        let p2scatter := pT2scatter * iSinTheta2 in
        if decide (deltaCotTheta2 - error2 > 0
                   /\ dCotThetaMinusError2
                      > p2scatter * sigmaScattering config
                        * sigmaScattering config) then
          mret RejectedScatteringAtPt
        else
          let Im := Rabs ((A - B * rM) * rM) in
          if decide (Im <= impactMax config) then
            curvature ← divide B (sqrt S2);
            mret (Accepted curvature Im)
          else mret RejectedImpact.

(** The three vectors filled per bottom. *)
Record TopScratch := {
  topSpVec : list (InternalSpacePoint T);
  curvatures : list R;
  impactParameters : list R
}.

Definition clearScratch : TopScratch :=
  {| topSpVec := []; curvatures := []; impactParameters := [] |}.

(** One iteration of the loop over [t]: [compatTopSP[t]] with
    [linCircleTop[t]]. *)
Definition topStep (rM covrM covzM : R) (lb : LinCircle)
    (scratch : TopScratch) (t : InternalSpacePoint T * LinCircle)
    : TopScratch :=
  match value (tripletCandidate rM covrM covzM lb t.2) with
  | Accepted curvature Im =>
      {| topSpVec := topSpVec scratch ++ [t.1];
         curvatures := curvatures scratch ++ [curvature];
         impactParameters := impactParameters scratch ++ [Im] |}
  | _ => scratch
  end.

Definition topLoop (rM covrM covzM : R) (lb : LinCircle)
    (tops : list (InternalSpacePoint T * LinCircle)) : TopScratch :=
  fold_left (topStep rM covrM covzM lb) tops clearScratch.

(** One iteration of the loop over [b]: [compatBottomSP[b]] with
    [linCircleBottom[b]]. *)
Definition bottomStep (spM : InternalSpacePoint T)
    (tops : list (InternalSpacePoint T * LinCircle))
    (seedsPerSpM : list (R * InternalSeed T))
    (b : InternalSpacePoint T * LinCircle) : list (R * InternalSeed T) :=
  let scratch := topLoop (radius spM) (covr spM) (covz spM) b.2 tops in
  match topSpVec scratch with
  | [] => seedsPerSpM
  | _ :: _ =>
      let sameTrackSeeds :=
        filterSeeds_2SpFixed (seedFilter config) b.1 spM
          (topSpVec scratch) (curvatures scratch) (impactParameters scratch)
          (Zo b.2) in
      seedsPerSpM ++ sameTrackSeeds
  end.

(** The body of the loop over the middle spacepoints of the current bin;
    [slot] is [state.outputVec[it.outputIndex]]. *)
Definition middleStep (it : SeedfinderStateIterator T)
    (slot : list (InternalSeed T)) (spM : InternalSpacePoint T)
    : list (InternalSeed T) :=
  let compatBottomSP :=
    findCompatBottomSP (it_grid it) (bottomBinIndices it) spM in
  match compatBottomSP with
  | [] => slot
  | _ :: _ =>
      let compatTopSP := findCompatTopSP (it_grid it) (topBinIndices it) spM in
      match compatTopSP with
      | [] => slot
      | _ :: _ =>
          let linCircleBottom :=
            transformCoordinates compatBottomSP spM true [] in
          let linCircleTop :=
            transformCoordinates compatTopSP spM false [] in
          let seedsPerSpM :=
            fold_left (bottomStep spM (zip compatTopSP linCircleTop))
              (zip compatBottomSP linCircleBottom) [] in
          filterSeeds_1SpFixed (seedFilter config) seedsPerSpM slot
      end
  end.

(** [createSeedsForRegion(it, state)].  The iterator is built from the
    state, so [it.outputIndex] is the index of an existing slot; for an
    index past the end (undefined in the source) nothing is written. *)
Definition createSeedsForRegion (it : SeedfinderStateIterator T)
    (state : SeedfinderState T) : SeedfinderState T :=
  {| binnedSP := binnedSP state;
     bottomBinFinder := bottomBinFinder state;
     topBinFinder := topBinFinder state;
     outputVec :=
       fold_left
         (fun out spM => alter (fun slot => middleStep it slot spM)
                           (outputIndex it) out)
         (currentBin it) (outputVec state) |}.

(** The cuts of the doublet builder as the specification words them.
    They are cuts on the ratio [cotTheta]: at equal radii there is no
    ratio, and the float the code has in its place, infinite or not a
    number, is below no bound. *)
Definition bottomCompatible (m b : InternalSpacePoint T) : Prop :=
  let dR := radius m - radius b in
  let cot := (isp_z m - isp_z b) / dR in
  let zOrigin := isp_z m - radius m * cot in
  dR <> 0
  /\ deltaRMin config <= dR <= deltaRMax config
  /\ Rabs cot <= cotThetaMax config
  /\ collisionRegionMin config <= zOrigin <= collisionRegionMax config.

Definition topCompatible (m t : InternalSpacePoint T) : Prop :=
  let dR := radius t - radius m in
  let cot := (isp_z t - isp_z m) / dR in
  let zOrigin := isp_z m - radius m * cot in
  dR <> 0
  /\ deltaRMin config <= dR <= deltaRMax config
  /\ Rabs cot <= cotThetaMax config
  /\ collisionRegionMin config <= zOrigin <= collisionRegionMax config.

(** A candidate at the radius and the z of the middle point, where the
    radial cut lets a zero distance through: its [cotTheta] is zero over
    zero. *)
Definition selfDoublet (m p : InternalSpacePoint T) : Prop :=
  deltaRMin config <= 0 <= deltaRMax config
  /\ radius p = radius m /\ isp_z p = isp_z m.

End CreateSeedsForRegion.

(** A bin sorted by non-decreasing radius. *)
Definition radiusSorted {T} (bin : list (InternalSpacePoint T)) : Prop :=
  Sorted (fun a b => radius a <= radius b) bin.

#[global] Instance bottomCompatible_dec {T} (config : SeedfinderConfig T)
    (m b : InternalSpacePoint T) : Decision (bottomCompatible config m b).
Proof. unfold bottomCompatible. apply _. Defined.

#[global] Instance topCompatible_dec {T} (config : SeedfinderConfig T)
    (m t : InternalSpacePoint T) : Decision (topCompatible config m t).
Proof. unfold topCompatible. apply _. Defined.

#[global] Instance selfDoublet_dec {T} (config : SeedfinderConfig T)
    (m p : InternalSpacePoint T) : Decision (selfDoublet config m p).
Proof. unfold selfDoublet. apply _. Defined.

(** The quantities of the triplet cuts as the specification words them:
    the line [v = A * u + B] through the conformal images of the bottom
    and the top partner, [S2 = 1 + A^2], the impact parameter, and the
    signed curvature. *)
Definition lineA (lb lt : LinCircle) : R := (V lt - V lb) / (U lt - U lb).
Definition lineB (lb lt : LinCircle) : R := V lb - lineA lb lt * U lb.
Definition lineS2 (lb lt : LinCircle) : R := 1 + lineA lb lt * lineA lb lt.
Definition impactOf (rM : R) (lb lt : LinCircle) : R :=
  Rabs ((lineA lb lt - lineB lb lt * rM) * rM).
Definition curvatureOf (lb lt : LinCircle) : R :=
  lineB lb lt / sqrt (lineS2 lb lt).

Definition isAccepted (v : Verdict) : Prop :=
  match v with Accepted _ _ => True | _ => False end.

#[global] Instance isAccepted_dec v : Decision (isAccepted v).
Proof. destruct v; simpl; apply _. Defined.

(** The (top, record) pairs whose three values the loop over the tops
    pushes, for the bottom record [lb]. *)
Definition recorded {T} (config : SeedfinderConfig T) (rM covrM covzM : R)
    (lb : LinCircle) (t : InternalSpacePoint T * LinCircle) : Prop :=
  isAccepted (value (tripletCandidate config rM covrM covzM lb t.2)).

#[global] Instance recorded_dec {T} (config : SeedfinderConfig T)
    rM covrM covzM lb t : Decision (recorded config rM covrM covzM lb t).
Proof. unfold recorded. apply _. Defined.

(** The region of interest as the specification words it. *)
Definition inRegion {T} `{SpacePoint T} (config : SeedfinderConfig T)
    (sp : T) : Prop :=
  zMin config <= sp_z sp <= zMax config
  /\ phiMin config <= atan2 (sp_y sp) (sp_x sp) <= phiMax config.

(** The index of the radius bucket of an internal spacepoint. *)
Definition rIndexOf {T} (isp : InternalSpacePoint T) : nat :=
  to_size_t (radius isp).

(** ** A concrete setting

    The cut values of the end-to-end scenarios of the specification, a
    plain spacepoint type, a one-cell grid and the points of the straight
    central track. *)

Module Scenario.

Record Point3 := { px : R; py : R; pz : R }.

#[global] Instance Point3_SpacePoint : SpacePoint Point3 :=
  {| sp_x := px; sp_y := py; sp_z := pz |}.

(** A filter that ranks nothing: one seed of weight 0 per accepted top,
    all of them appended to the slot. *)
Definition plainFilter : SeedFilter Point3 :=
  {| filterSeeds_2SpFixed := fun b m tops _ _ zo =>
       (fun t => (0, {| seed_bottom := b; seed_middle := m;
                        seed_top := t; seed_z := zo |})) <$> tops;
     filterSeeds_1SpFixed := fun seeds slot => slot ++ seeds.*2 |}.

(** The configuration a caller hands to the constructor; the derived
    constants are not set yet. *)
Definition userConfig (dRMin dRMax pt rmax : R) (beam : R * R)
    : SeedfinderConfig Point3 :=
  {| seedFilter := plainFilter;
     minPt := pt;
     cotThetaMax := 7.40627;
     deltaRMin := dRMin;
     deltaRMax := dRMax;
     impactMax := 10;
     sigmaScattering := 5;
     collisionRegionMin := -150;
     collisionRegionMax := 150;
     phiMin := -4;
     phiMax := 4;
     zMin := -2800;
     zMax := 2800;
     rMax := rmax;
     bFieldInZ := 0.002;
     beamPos := beam;
     radLengthPerSeed := 0.1;
     zAlign := 0;
     rAlign := 0;
     sigmaError := 1;
     highland := 0;
     maxScatteringAngle2 := 0;
     pTPerHelixRadius := 0;
     minHelixDiameter2 := 0;
     pT2perRadius := 0 |}.

(** The configuration the constructed seed finder holds. *)
Definition constructed (c : SeedfinderConfig Point3)
    : SeedfinderConfig Point3 :=
  match Seedfinder_new c with
  | Constructed finder => m_config finder
  | Thrown => c
  end.

Definition scenarioConfig : SeedfinderConfig Point3 :=
  constructed (userConfig 5 270 400 200 (0, 0)).

(** [rMax + |beamPos| = 160.5]: not a whole number of millimetres. *)
Definition offsetConfig : SeedfinderConfig Point3 :=
  constructed (userConfig 5 270 400 160 (0.5, 0)).

(** [deltaRMin > deltaRMax] and [minPt <= 0]. *)
Definition badConfig : SeedfinderConfig Point3 :=
  userConfig 270 5 0 200 (0, 0).

Definition oneCell (_ : SpacePointGridConfig) : GridBinning :=
  {| binning_numLocalBins := (1%nat, 1%nat);
     binning_globalBin := fun _ _ => 0%nat |}.

Definition noCovariance (_ : Point3) (_ _ _ : R) : R * R := (0, 0).

Definition selfOnly : IBinFinder Point3 :=
  {| findBins := fun _ _ _ => [0%nat] |}.

(** A point on the x axis at radius [r], and its internal form for a beam
    at the origin. *)
Definition onAxis (r : R) : Point3 := {| px := r; py := 0; pz := 0 |}.

Definition onAxisInternal (r : R) : InternalSpacePoint Point3 :=
  {| isp_x := r; isp_y := 0; isp_z := 0; radius := r; phi := 0;
     covr := 0; covz := 0; isp_sp := onAxis r |}.

Definition trackGrid : SpacePointGrid Point3 :=
  {| numLocalBins := (1%nat, 1%nat);
     globalBin := fun _ _ => 0%nat;
     bins := {[ 0%nat := [onAxisInternal 30; onAxisInternal 80;
                          onAxisInternal 180] ]} |}.

Definition trackIterator : SeedfinderStateIterator Point3 :=
  {| currentBin := gridAt trackGrid 0;
     bottomBinIndices := [0%nat];
     topBinIndices := [0%nat];
     outputIndex := 0;
     it_grid := trackGrid |}.

Definition stateWith (out : list (list (InternalSeed Point3)))
    : SeedfinderState Point3 :=
  {| binnedSP := trackGrid;
     bottomBinFinder := selfOnly;
     topBinFinder := selfOnly;
     outputVec := out |}.

Definition someSeed : InternalSeed Point3 :=
  {| seed_bottom := onAxisInternal 30; seed_middle := onAxisInternal 80;
     seed_top := onAxisInternal 180; seed_z := 0 |}.

(** The points of the second end-to-end scenario: a track that points to
    [z = 197], outside the collision region. *)
Definition atHeight (r z : R) : InternalSpacePoint Point3 :=
  {| isp_x := r; isp_y := 0; isp_z := z; radius := r; phi := 0;
     covr := 0; covz := 0; isp_sp := {| px := r; py := 0; pz := z |} |}.

Definition tiltedGrid : SpacePointGrid Point3 :=
  {| numLocalBins := (1%nat, 1%nat);
     globalBin := fun _ _ => 0%nat;
     bins := {[ 0%nat := [atHeight 30 200; atHeight 80 205;
                          atHeight 180 215] ]} |}.

Definition tiltedIterator : SeedfinderStateIterator Point3 :=
  {| currentBin := gridAt tiltedGrid 0;
     bottomBinIndices := [0%nat];
     topBinIndices := [0%nat];
     outputIndex := 0;
     it_grid := tiltedGrid |}.

(** Conformal records of a bottom at 45 degrees and of a flat top: a kink
    no scattering explains. *)
Definition steepBottom : LinCircle :=
  {| Zo := 0; cotTheta := 1; iDeltaR := 0.02; Er := 0; U := -0.02; V := 0 |}.

Definition flatTop : LinCircle :=
  {| Zo := 0; cotTheta := 0; iDeltaR := 0.01; Er := 0; U := 0.01; V := 0 |}.

(** The point of radius 160.2 once translated by the beam of
    [offsetConfig], and the state built from it alone. *)
Definition edgePoint : Point3 := onAxis 160.7.

Definition edgeState : SeedfinderState Point3 :=
  initState offsetConfig oneCell noCovariance [Some edgePoint]
    selfOnly selfOnly.

End Scenario.

(** ** Further notions used to describe the code *)

#[global] Instance inRegion_dec {T} `{SpacePoint T}
    (config : SeedfinderConfig T) (sp : T) : Decision (inRegion config sp).
Proof. unfold inRegion. apply _. Defined.

(** The grid configuration [initState] fills in. *)
Definition gridConfOf {T} (config : SeedfinderConfig T)
    : SpacePointGridConfig :=
  {| grid_bFieldInZ := bFieldInZ config;
     grid_minPt := minPt config;
     grid_rMax := rMax config;
     grid_zMax := zMax config;
     grid_zMin := zMin config;
     grid_deltaRMax := deltaRMax config;
     grid_cotThetaMax := cotThetaMax config |}.

(** The internal spacepoints of the entries of the input range that are
    neither null, nor outside the region, nor without a radius bucket, in
    the order of the range. *)
Definition indexedPoints {T} `{SpacePoint T} (config : SeedfinderConfig T)
    (covTool : T -> R -> R -> R -> R * R) (spRange : list (option T))
    : list (InternalSpacePoint T) :=
  internalOf config covTool
  <$> filter
        (fun sp =>
           inRegion config sp
           /\ (rIndexOf (internalOf config covTool sp)
               < numRBins config)%nat)
        (omap (fun it => it) spRange).

(** A partner on the ray from the beam axis through the middle point. *)
Definition radiallyAligned {T} (m p : InternalSpacePoint T) : Prop :=
  exists scale : R,
    isp_x p = scale * isp_x m /\ isp_y p = scale * isp_y m.

(** A second region of the concrete setting: the same cell scanned into
    the output slot 1. *)
Module ScenarioRegions.
Import Scenario.

(** The scenario configuration with [deltaRMin = 0]: no minimum radial
    distance between the middle point and a partner. *)
Definition zeroMinConfig : SeedfinderConfig Point3 :=
  constructed (userConfig 0 270 400 200 (0, 0)).

Definition secondIterator : SeedfinderStateIterator Point3 :=
  {| currentBin := gridAt trackGrid 0;
     bottomBinIndices := [0%nat];
     topBinIndices := [0%nat];
     outputIndex := 1;
     it_grid := trackGrid |}.

(** The scenario configuration with a negative [impactMax]. *)
Definition noImpactConfig : SeedfinderConfig Point3 :=
  {| seedFilter := plainFilter;
     minPt := 400;
     cotThetaMax := 7.40627;
     deltaRMin := 5;
     deltaRMax := 270;
     impactMax := -1;
     sigmaScattering := 5;
     collisionRegionMin := -150;
     collisionRegionMax := 150;
     phiMin := -4;
     phiMax := 4;
     zMin := -2800;
     zMax := 2800;
     rMax := 200;
     bFieldInZ := 0.002;
     beamPos := (0, 0);
     radLengthPerSeed := 0.1;
     zAlign := 0;
     rAlign := 0;
     sigmaError := 1;
     highland := highland scenarioConfig;
     maxScatteringAngle2 := maxScatteringAngle2 scenarioConfig;
     pTPerHelixRadius := pTPerHelixRadius scenarioConfig;
     minHelixDiameter2 := minHelixDiameter2 scenarioConfig;
     pT2perRadius := pT2perRadius scenarioConfig |}.

End ScenarioRegions.

(** * Properties *)

(** ** The conformal transformation *)

Section TransformCoordinatesFacts.
Context {T : Type}.
Implicit Types (m p : InternalSpacePoint T).
Implicit Types (vec : list (InternalSpacePoint T)).

Lemma bottomFactor_sign bottom :
  IZR (bottomFactor bottom) = partnerSign (kindOfFlag bottom).
Proof. destruct bottom; reflexivity. Qed.

Lemma transformOne_conformal m bottom p :
  transformOne m bottom p = conformalRecord m (kindOfFlag bottom) p.
Proof.
  unfold transformOne, conformalRecord.
  rewrite bottomFactor_sign. reflexivity.
Qed.

Lemma transformCoordinates_app vec m bottom acc :
  transformCoordinates vec m bottom acc
  = acc ++ map (transformOne m bottom) vec.
Proof.
  revert acc. induction vec as [|sp rest IH]; intros acc; simpl.
  - now rewrite app_nil_r.
  - rewrite IH, <- app_assoc. reflexivity.
Qed.

Lemma transformCoordinates_length vec m bottom :
  length (transformCoordinates vec m bottom []) = length vec.
Proof. rewrite transformCoordinates_app. simpl. apply length_map. Qed.

(** C4.  For a middle spacepoint of positive radius, called on an empty
    output vector, [transformCoordinates] returns the conformal records of
    the specification (sign [-1] when [bottom] is set, [+1] otherwise),
    one per partner and in the order of the partners. *)
Theorem transformCoordinates_is_conformal vec m bottom :
  radius m > 0 ->
  transformCoordinates vec m bottom []
  = map (conformalRecord m (kindOfFlag bottom)) vec.
Proof.
  intros _. rewrite transformCoordinates_app. simpl.
  apply map_ext. intros p. apply transformOne_conformal.
Qed.

End TransformCoordinatesFacts.

(** ** The doublet builder *)

Lemma filter_none {A} (P : A -> Prop) `{forall x, Decision (P x)}
    (l : list A) :
  Forall (fun x => ~ P x) l -> filter P l = [].
Proof.
  induction 1 as [|x rest Hx _ IH]; [reflexivity|].
  now rewrite filter_cons_False.
Qed.

Section DoubletFacts.
Context {T : Type}.
Variable config : SeedfinderConfig T.
Implicit Types (m b t : InternalSpacePoint T).
Implicit Types (bin acc : list (InternalSpacePoint T)).

Lemma inside_of_not_outside (lo hi z : R) :
  ~ (z < lo \/ z > hi) -> lo <= z <= hi.
Proof. intros Hz. split; [apply Rnot_lt_le | apply Rnot_gt_le]; tauto. Qed.

Lemma radiusSorted_strongly bin :
  radiusSorted bin -> StronglySorted (fun a b => radius a <= radius b) bin.
Proof.
  apply Sorted_StronglySorted. intros a b c Hab Hbc. lra.
Qed.

(** One iteration of the loop over a bottom bin: past the radial tests,
    the candidate is pushed exactly when it passes the cuts or its
    [cotTheta] is zero over zero. *)
Lemma bottomBinLoop_cons m b rest acc :
  bottomBinLoop config (radius m) (isp_z m) (b :: rest) acc
  = if decide (radius m - radius b > deltaRMax config) then
      bottomBinLoop config (radius m) (isp_z m) rest acc
    else if decide (radius m - radius b < deltaRMin config) then acc
    else if decide (bottomCompatible config m b \/ selfDoublet config m b)
    then bottomBinLoop config (radius m) (isp_z m) rest (acc ++ [b])
    else bottomBinLoop config (radius m) (isp_z m) rest acc.
Proof.
  simpl.
  destruct (decide (radius m - radius b > deltaRMax config)) as [Hfar|Hfar];
    [reflexivity|].
  destruct (decide (radius m - radius b < deltaRMin config)) as [Hnear|Hnear];
    [reflexivity|].
  unfold quotient, bottomCompatible, selfDoublet. cbv zeta.
  destruct (decide (radius m - radius b = 0)) as [H0|H0].
  - destruct (decide (isp_z m - isp_z b = 0)) as [Hz|Hz].
    + rewrite decide_True; [reflexivity|]. right. lra.
    + rewrite decide_False; [reflexivity|]. intros [(Hne & _)|(_ & _ & Hz')];
        [contradiction|lra].
  - destruct (decide (Rabs _ > cotThetaMax config)) as [Hcot|Hcot].
    { rewrite decide_False; [reflexivity|].
      intros [(_ & _ & Hc & _)|(_ & Hr & _)]; lra. }
    destruct (decide (_ \/ _)) as [Hout|Hin].
    { rewrite decide_False; [reflexivity|].
      intros [(_ & _ & _ & Hzo)|(_ & Hr & _)]; lra. }
    rewrite decide_True; [reflexivity|]. left.
    apply inside_of_not_outside in Hin. lra.
Qed.

Lemma topBinLoop_cons m t rest acc :
  topBinLoop config (radius m) (isp_z m) (t :: rest) acc
  = if decide (radius t - radius m < deltaRMin config) then
      topBinLoop config (radius m) (isp_z m) rest acc
    else if decide (radius t - radius m > deltaRMax config) then acc
    else if decide (topCompatible config m t \/ selfDoublet config m t)
    then topBinLoop config (radius m) (isp_z m) rest (acc ++ [t])
    else topBinLoop config (radius m) (isp_z m) rest acc.
Proof.
  simpl.
  destruct (decide (radius t - radius m < deltaRMin config)) as [Hnear|Hnear];
    [reflexivity|].
  destruct (decide (radius t - radius m > deltaRMax config)) as [Hfar|Hfar];
    [reflexivity|].
  unfold quotient, topCompatible, selfDoublet. cbv zeta.
  destruct (decide (radius t - radius m = 0)) as [H0|H0].
  - destruct (decide (isp_z t - isp_z m = 0)) as [Hz|Hz].
    + rewrite decide_True; [reflexivity|]. right. lra.
    + rewrite decide_False; [reflexivity|]. intros [(Hne & _)|(_ & _ & Hz')];
        [contradiction|lra].
  - destruct (decide (Rabs _ > cotThetaMax config)) as [Hcot|Hcot].
    { rewrite decide_False; [reflexivity|].
      intros [(_ & _ & Hc & _)|(_ & Hr & _)]; lra. }
    destruct (decide (_ \/ _)) as [Hout|Hin].
    { rewrite decide_False; [reflexivity|].
      intros [(_ & _ & _ & Hzo)|(_ & Hr & _)]; lra. }
    rewrite decide_True; [reflexivity|]. left.
    apply inside_of_not_outside in Hin. lra.
Qed.

(** What a loop has collected is kept; the loop only appends. *)
Lemma bottomBinLoop_acc rM zM bin acc :
  bottomBinLoop config rM zM bin acc
  = acc ++ bottomBinLoop config rM zM bin [].
Proof.
  revert acc. induction bin as [|b rest IH]; intros acc; simpl.
  - now rewrite app_nil_r.
  - repeat (destruct (decide _)); try apply IH; try now rewrite app_nil_r.
    destruct (quotient _ _); repeat (destruct (decide _)); try apply IH;
      rewrite IH, (IH [b]), app_assoc; reflexivity.
Qed.

Lemma topBinLoop_acc rM zM bin acc :
  topBinLoop config rM zM bin acc = acc ++ topBinLoop config rM zM bin [].
Proof.
  revert acc. induction bin as [|t rest IH]; intros acc; simpl.
  - now rewrite app_nil_r.
  - repeat (destruct (decide _)); try apply IH; try now rewrite app_nil_r.
    destruct (quotient _ _); repeat (destruct (decide _)); try apply IH;
      rewrite IH, (IH [t]), app_assoc; reflexivity.
Qed.

(** Whatever the order of the bin, a kept candidate is a candidate of the
    bin that passed every cut, or whose [cotTheta] is zero over zero. *)
Lemma bottomBinLoop_sound m bin b :
  b ∈ bottomBinLoop config (radius m) (isp_z m) bin [] ->
  b ∈ bin /\ (bottomCompatible config m b \/ selfDoublet config m b).
Proof.
  induction bin as [|b' rest IH];
    [intros Hb; now apply elem_of_nil in Hb|].
  rewrite bottomBinLoop_cons.
  destruct (decide (radius m - radius b' > deltaRMax config)) as [Hfar|Hfar].
  { intros Hb. destruct (IH Hb). split; [now right|assumption]. }
  destruct (decide (radius m - radius b' < deltaRMin config)) as [Hnear|Hnear].
  { intros Hb; now apply elem_of_nil in Hb. }
  destruct (decide (_ \/ _)) as [Hkeep|Hskip].
  - rewrite bottomBinLoop_acc. simpl. intros Hb.
    apply elem_of_cons in Hb as [->|Hb]; [split; [now left|exact Hkeep]|].
    destruct (IH Hb). split; [now right|assumption].
  - intros Hb. destruct (IH Hb). split; [now right|assumption].
Qed.

Lemma topBinLoop_sound m bin t :
  t ∈ topBinLoop config (radius m) (isp_z m) bin [] ->
  t ∈ bin /\ (topCompatible config m t \/ selfDoublet config m t).
Proof.
  induction bin as [|t' rest IH];
    [intros Ht; now apply elem_of_nil in Ht|].
  rewrite topBinLoop_cons.
  destruct (decide (radius t' - radius m < deltaRMin config)) as [Hnear|Hnear].
  { intros Ht. destruct (IH Ht). split; [now right|assumption]. }
  destruct (decide (radius t' - radius m > deltaRMax config)) as [Hfar|Hfar].
  { intros Ht; now apply elem_of_nil in Ht. }
  destruct (decide (_ \/ _)) as [Hkeep|Hskip].
  - rewrite topBinLoop_acc. simpl. intros Ht.
    apply elem_of_cons in Ht as [->|Ht]; [split; [now left|exact Hkeep]|].
    destruct (IH Ht). split; [now right|assumption].
  - intros Ht. destruct (IH Ht). split; [now right|assumption].
Qed.

(** On a sorted bin the [break] skips nothing the loop would push. *)
Lemma bottomBinLoop_sorted m bin acc :
  StronglySorted (fun a b => radius a <= radius b) bin ->
  bottomBinLoop config (radius m) (isp_z m) bin acc
  = acc ++ filter (fun b => bottomCompatible config m b
                            \/ selfDoublet config m b) bin.
Proof.
  intros Hs. revert acc.
  induction Hs as [|b rest Hrest IH Hb]; intros acc.
  - simpl. now rewrite app_nil_r.
  - rewrite bottomBinLoop_cons.
    destruct (decide (radius m - radius b > deltaRMax config)) as [Hfar|Hfar].
    { rewrite IH, filter_cons_False; [reflexivity|].
      unfold bottomCompatible, selfDoublet. simpl. intros [?|?]; lra. }
    destruct (decide (radius m - radius b < deltaRMin config)) as [Hnear|Hnear].
    { rewrite filter_cons_False
        by (unfold bottomCompatible, selfDoublet; simpl; intros [?|?]; lra).
      rewrite filter_none; [now rewrite app_nil_r|].
      eapply Forall_impl; [exact Hb|]. simpl. intros b' Hle.
      unfold bottomCompatible, selfDoublet. simpl. intros [?|?]; lra. }
    destruct (decide (_ \/ _)) as [Hkeep|Hskip].
    + rewrite IH, filter_cons_True by exact Hkeep. now rewrite <- app_assoc.
    + now rewrite IH, filter_cons_False by exact Hskip.
Qed.

Lemma topBinLoop_sorted m bin acc :
  StronglySorted (fun a b => radius a <= radius b) bin ->
  topBinLoop config (radius m) (isp_z m) bin acc
  = acc ++ filter (fun t => topCompatible config m t
                            \/ selfDoublet config m t) bin.
Proof.
  intros Hs. revert acc.
  induction Hs as [|t rest Hrest IH Ht]; intros acc.
  - simpl. now rewrite app_nil_r.
  - rewrite topBinLoop_cons.
    destruct (decide (radius t - radius m < deltaRMin config)) as [Hnear|Hnear].
    { rewrite IH, filter_cons_False; [reflexivity|].
      unfold topCompatible, selfDoublet. simpl. intros [?|?]; lra. }
    destruct (decide (radius t - radius m > deltaRMax config)) as [Hfar|Hfar].
    { rewrite filter_cons_False
        by (unfold topCompatible, selfDoublet; simpl; intros [?|?]; lra).
      rewrite filter_none; [now rewrite app_nil_r|].
      eapply Forall_impl; [exact Ht|]. simpl. intros t' Hle.
      unfold topCompatible, selfDoublet. simpl. intros [?|?]; lra. }
    destruct (decide (_ \/ _)) as [Hkeep|Hskip].
    + rewrite IH, filter_cons_True by exact Hkeep. now rewrite <- app_assoc.
    + now rewrite IH, filter_cons_False by exact Hskip.
Qed.

(** The candidates kept for a middle, cell by cell. *)
Lemma bottomCells_fold grid idxs m acc :
  fold_left
    (fun compat k =>
       bottomBinLoop config (radius m) (isp_z m) (gridAt grid k) compat)
    idxs acc
  = acc ++ (idxs ≫= fun k =>
              bottomBinLoop config (radius m) (isp_z m) (gridAt grid k) []).
Proof.
  revert acc. induction idxs as [|k rest IH]; intros acc; simpl.
  - now rewrite app_nil_r.
  - rewrite IH, bottomBinLoop_acc, <- app_assoc. reflexivity.
Qed.

Lemma topCells_fold grid idxs m acc :
  fold_left
    (fun compat k =>
       topBinLoop config (radius m) (isp_z m) (gridAt grid k) compat)
    idxs acc
  = acc ++ (idxs ≫= fun k =>
              topBinLoop config (radius m) (isp_z m) (gridAt grid k) []).
Proof.
  revert acc. induction idxs as [|k rest IH]; intros acc; simpl.
  - now rewrite app_nil_r.
  - rewrite IH, topBinLoop_acc, <- app_assoc. reflexivity.
Qed.

Lemma findCompatBottomSP_cells grid idxs m :
  findCompatBottomSP config grid idxs m
  = idxs ≫= fun k =>
      bottomBinLoop config (radius m) (isp_z m) (gridAt grid k) [].
Proof. unfold findCompatBottomSP. now rewrite bottomCells_fold. Qed.

Lemma findCompatTopSP_cells grid idxs m :
  findCompatTopSP config grid idxs m
  = idxs ≫= fun k =>
      topBinLoop config (radius m) (isp_z m) (gridAt grid k) [].
Proof. unfold findCompatTopSP. now rewrite topCells_fold. Qed.

(** X25.  Every bottom candidate the doublet builder keeps for a middle
    [m] comes from a candidate cell and either satisfies the cuts, that
    is [rM <> rB], [deltaRMin <= rM - rB <= deltaRMax],
    [|(zM - zB) / (rM - rB)| <= cotThetaMax] and
    [collisionRegionMin <= zM - rM * cotTheta <= collisionRegionMax], or
    has the radius and the z of [m] while [deltaRMin <= 0 <= deltaRMax];
    from a candidate cell whose bin is sorted by non-decreasing radius
    every such candidate is kept.  The same holds for the top candidates
    with the mirrored cuts. *)
Theorem doublet_builder_keeps_exactly_compatible
    grid bottomIdxs topIdxs m :
  (forall b,
     b ∈ findCompatBottomSP config grid bottomIdxs m ->
     (exists k, k ∈ bottomIdxs /\ b ∈ gridAt grid k)
     /\ (bottomCompatible config m b \/ selfDoublet config m b))
  /\ (forall k b,
        k ∈ bottomIdxs -> radiusSorted (gridAt grid k) ->
        b ∈ gridAt grid k ->
        bottomCompatible config m b \/ selfDoublet config m b ->
        b ∈ findCompatBottomSP config grid bottomIdxs m)
  /\ (forall t,
        t ∈ findCompatTopSP config grid topIdxs m ->
        (exists k, k ∈ topIdxs /\ t ∈ gridAt grid k)
        /\ (topCompatible config m t \/ selfDoublet config m t))
  /\ (forall k t,
        k ∈ topIdxs -> radiusSorted (gridAt grid k) ->
        t ∈ gridAt grid k ->
        topCompatible config m t \/ selfDoublet config m t ->
        t ∈ findCompatTopSP config grid topIdxs m).
Proof.
  rewrite findCompatBottomSP_cells, findCompatTopSP_cells.
  split; [|split; [|split]].
  - intros b Hb. apply list_elem_of_bind in Hb as (k & Hb & Hk).
    apply bottomBinLoop_sound in Hb as [Hin Hc].
    split; [now exists k | exact Hc].
  - intros k b Hk Hs Hin Hc. apply list_elem_of_bind. exists k.
    split; [|exact Hk].
    rewrite bottomBinLoop_sorted by now apply radiusSorted_strongly.
    simpl. apply list_elem_of_filter. now split.
  - intros t Ht. apply list_elem_of_bind in Ht as (k & Ht & Hk).
    apply topBinLoop_sound in Ht as [Hin Hc].
    split; [now exists k | exact Hc].
  - intros k t Hk Hs Hin Hc. apply list_elem_of_bind. exists k.
    split; [|exact Hk].
    rewrite topBinLoop_sorted by now apply radiusSorted_strongly.
    simpl. apply list_elem_of_filter. now split.
Qed.

End DoubletFacts.

(** ** The triplet builder *)

Section TripletFacts.
Context {T : Type}.
Variable config : SeedfinderConfig T.
Implicit Types (lb lt : LinCircle) (v : Verdict).
Implicit Types (tops : list (InternalSpacePoint T * LinCircle)).

Lemma quotient_ge (s b2 m : R) : 0 < b2 -> b2 * m <= s -> s / b2 >= m.
Proof.
  intros Hb Hs. apply Rle_ge, Rmult_le_reg_r with b2; [exact Hb|].
  unfold Rdiv. rewrite Rmult_assoc, Rinv_l by lra. lra.
Qed.

Lemma lineS2_pos lb lt : 0 < lineS2 lb lt.
Proof. unfold lineS2. nra. Qed.

(** The verdict on a pair, one equation per way out of the loop body. *)
Lemma tripletCandidate_cases rM covrM covzM lb lt :
  let r := tripletCandidate config rM covrM covzM lb lt in
  let scat := deltaCotTheta2Of lb lt - error2Of covrM covzM lb lt > 0 in
  let d := dCotThetaMinusError2Of covrM covzM lb lt in
  let p2 := 4 * (lineB lb lt * lineB lb lt / lineS2 lb lt)
            * pT2perRadius config * iSinTheta2Of lb in
  (scat /\ d > scatteringInRegion2Of config lb
   /\ r = MkLogged RejectedScatteringInRegion [])
  \/ (~ (scat /\ d > scatteringInRegion2Of config lb)
      /\ U lt - U lb = 0 /\ r = MkLogged RejectedZeroDU [])
  \/ (~ (scat /\ d > scatteringInRegion2Of config lb)
      /\ U lt - U lb <> 0
      /\ ((lineS2 lb lt < lineB lb lt * lineB lb lt * minHelixDiameter2 config
           /\ r = MkLogged RejectedHelixDiameter [U lt - U lb])
          \/ (~ lineS2 lb lt
                < lineB lb lt * lineB lb lt * minHelixDiameter2 config
              /\ ((scat /\ d > p2 * sigmaScattering config
                                * sigmaScattering config
                   /\ r = MkLogged RejectedScatteringAtPt
                            [U lt - U lb; lineS2 lb lt])
                  \/ (~ (scat /\ d > p2 * sigmaScattering config
                                     * sigmaScattering config)
                      /\ ((impactOf rM lb lt <= impactMax config
                           /\ r = MkLogged
                                    (Accepted (curvatureOf lb lt)
                                       (impactOf rM lb lt))
                                    [U lt - U lb; lineS2 lb lt;
                                     sqrt (lineS2 lb lt)])
                          \/ (~ impactOf rM lb lt <= impactMax config
                              /\ r = MkLogged RejectedImpact
                                       [U lt - U lb; lineS2 lb lt]))))))).
Proof.
  unfold tripletCandidate. cbv zeta.
  destruct (decide (_ /\ _)) as [H1|H1]; [left; tauto|right].
  destruct (decide (U lt - U lb = 0)) as [H2|H2]; [left; tauto|right].
  split; [exact H1|]. split; [exact H2|].
  unfold divide. cbn [mbind Logged_bind value divisors mret Logged_ret].
  fold (lineA lb lt). fold (lineB lb lt). fold (lineS2 lb lt).
  destruct (decide (lineS2 lb lt < _)) as [H3|H3]; [left; tauto|right].
  split; [exact H3|].
  cbn [mbind Logged_bind value divisors mret Logged_ret app].
  destruct (decide (_ /\ _)) as [H4|H4]; [left; tauto|right].
  split; [exact H4|].
  fold (impactOf rM lb lt).
  destruct (decide (impactOf rM lb lt <= _)) as [H5|H5]; [left|right].
  - split; [exact H5|]. reflexivity.
  - split; [exact H5|]. reflexivity.
Qed.

(** A pair that passes every test is accepted. *)
Lemma accepted_when rM covrM covzM lb lt :
  deltaCotTheta2Of lb lt - error2Of covrM covzM lb lt <= 0 ->
  U lt - U lb <> 0 ->
  lineB lb lt * lineB lb lt * minHelixDiameter2 config <= lineS2 lb lt ->
  impactOf rM lb lt <= impactMax config ->
  value (tripletCandidate config rM covrM covzM lb lt)
  = Accepted (curvatureOf lb lt) (impactOf rM lb lt).
Proof.
  intros Hscat HdU Hhelix Him.
  pose proof (tripletCandidate_cases rM covrM covzM lb lt) as Hc.
  cbv zeta in Hc.
  destruct Hc as [(Hpos & _)|[(_ & H0 & _)|(_ & _ & Hc)]];
    [lra | contradiction |].
  destruct Hc as [(Hlow & _)|(_ & Hc)]; [lra|].
  destruct Hc as [(Hpos & _)|(_ & Hc)]; [lra|].
  destruct Hc as [(_ & E)|(Hbig & _)]; [now rewrite E | contradiction].
Qed.

(** What an accepted pair went through. *)
Lemma accepted_inv rM covrM covzM lb lt :
  isAccepted (value (tripletCandidate config rM covrM covzM lb lt)) ->
  value (tripletCandidate config rM covrM covzM lb lt)
  = Accepted (curvatureOf lb lt) (impactOf rM lb lt)
  /\ U lt - U lb <> 0
  /\ lineB lb lt * lineB lb lt * minHelixDiameter2 config <= lineS2 lb lt
  /\ impactOf rM lb lt <= impactMax config.
Proof.
  pose proof (tripletCandidate_cases rM covrM covzM lb lt) as Hc.
  cbv zeta in Hc. intros Hacc.
  destruct Hc as [(_ & _ & E)|[(_ & _ & E)|(_ & HdU & Hc)]];
    try (rewrite E in Hacc; contradiction).
  destruct Hc as [(_ & E)|(Hhelix & Hc)];
    try (rewrite E in Hacc; contradiction).
  destruct Hc as [(_ & _ & E)|(_ & Hc)];
    try (rewrite E in Hacc; contradiction).
  destruct Hc as [(Him & E)|(_ & E)];
    try (rewrite E in Hacc; contradiction).
  rewrite E. simpl. repeat split; try assumption. lra.
Qed.

Lemma rejected_if_out_of_bounds rM covrM covzM lb lt :
  impactOf rM lb lt > impactMax config
  \/ lineS2 lb lt < lineB lb lt * lineB lb lt * minHelixDiameter2 config ->
  ~ isAccepted (value (tripletCandidate config rM covrM covzM lb lt)).
Proof.
  intros Hout Hacc. apply accepted_inv in Hacc as (_ & _ & Hh & Hi). lra.
Qed.

Lemma topLoop_fold rM covrM covzM lb tops scratch :
  let kept := filter (recorded config rM covrM covzM lb) tops in
  fold_left (topStep config rM covrM covzM lb) tops scratch
  = {| topSpVec := topSpVec scratch ++ kept.*1;
       curvatures := curvatures scratch
                     ++ ((fun t => curvatureOf lb t.2) <$> kept);
       impactParameters := impactParameters scratch
                           ++ ((fun t => impactOf rM lb t.2) <$> kept) |}.
Proof.
  cbv zeta. revert scratch.
  induction tops as [|t rest IH]; intros scratch; simpl.
  - rewrite !app_nil_r. now destruct scratch.
  - rewrite IH. unfold topStep at 1 2 3.
    destruct (decide (recorded config rM covrM covzM lb t)) as [Hacc|Hrej].
    + rewrite filter_cons_True by exact Hacc.
      apply accepted_inv in Hacc as (E & _). rewrite E. simpl.
      rewrite <- !app_assoc. reflexivity.
    + rewrite filter_cons_False by exact Hrej.
      unfold recorded in Hrej.
      destruct (value (tripletCandidate config rM covrM covzM lb t.2));
        try reflexivity.
      exfalso. apply Hrej. exact I.
Qed.

Lemma topLoop_recorded rM covrM covzM lb tops :
  let kept := filter (recorded config rM covrM covzM lb) tops in
  topLoop config rM covrM covzM lb tops
  = {| topSpVec := kept.*1;
       curvatures := (fun t => curvatureOf lb t.2) <$> kept;
       impactParameters := (fun t => impactOf rM lb t.2) <$> kept |}.
Proof. unfold topLoop. rewrite topLoop_fold. reflexivity. Qed.

(** C2.  Every top recorded in [topSpVec] for a bottom comes from a
    candidate pair whose impact parameter [|(A - B * rM) * rM|] is at most
    [impactMax] and whose [S2] is at least [B^2 * minHelixDiameter2] (so
    that, where [B] is not zero, the squared helix diameter [S2 / B^2] is at
    least [minHelixDiameter2]); its curvature and impact parameter are
    recorded at the same position.  A pair violating either bound is not
    accepted, and when every top violates one, the bottom contributes no
    seed. *)
Theorem accepted_triplets_within_bounds
    (spM : InternalSpacePoint T) lb tops :
  let rM := radius spM in
  let scratch := topLoop config rM (covr spM) (covz spM) lb tops in
  (forall i spT,
     topSpVec scratch !! i = Some spT ->
     exists j lt,
       tops !! j = Some (spT, lt)
       /\ curvatures scratch !! i = Some (curvatureOf lb lt)
       /\ impactParameters scratch !! i = Some (impactOf rM lb lt)
       /\ impactOf rM lb lt <= impactMax config
       /\ lineS2 lb lt >= lineB lb lt * lineB lb lt * minHelixDiameter2 config
       /\ (lineB lb lt <> 0 ->
           lineS2 lb lt / (lineB lb lt * lineB lb lt)
           >= minHelixDiameter2 config))
  /\ (forall lt,
        impactOf rM lb lt > impactMax config
        \/ lineS2 lb lt < lineB lb lt * lineB lb lt * minHelixDiameter2 config ->
        ~ isAccepted
            (value (tripletCandidate config rM (covr spM) (covz spM) lb lt)))
  /\ (forall (spB : InternalSpacePoint T) seedsPerSpM,
        (forall t, t ∈ tops ->
           impactOf rM lb t.2 > impactMax config
           \/ lineS2 lb t.2
              < lineB lb t.2 * lineB lb t.2 * minHelixDiameter2 config) ->
        bottomStep config spM tops seedsPerSpM (spB, lb) = seedsPerSpM).
Proof.
  cbv zeta. rewrite topLoop_recorded. cbv zeta. simpl.
  set (rM := radius spM). set (covrM := covr spM). set (covzM := covz spM).
  split; [|split].
  - intros i spT Hi.
    rewrite list_lookup_fmap in Hi.
    destruct (filter _ tops !! i) as [[spT' lt]|] eqn:Hk; [|discriminate].
    simpl in Hi. injection Hi as ->.
    assert (Hin : (spT, lt) ∈ filter (recorded config rM covrM covzM lb) tops)
      by (eapply list_elem_of_lookup_2; exact Hk).
    apply list_elem_of_filter in Hin as [Hacc Hin].
    apply list_elem_of_lookup_1 in Hin as [j Hj].
    apply accepted_inv in Hacc as (_ & _ & Hh & Him). simpl in Hh, Him.
    exists j, lt. rewrite !list_lookup_fmap, Hk. simpl.
    repeat split; try assumption; try lra.
    intros HB. apply quotient_ge; [nra|lra].
  - intros lt. apply rejected_if_out_of_bounds.
  - intros spB seeds Hall.
    unfold bottomStep. simpl. rewrite topLoop_recorded. cbv zeta. simpl.
    replace (filter _ tops) with (@nil (InternalSpacePoint T * LinCircle));
      [reflexivity|].
    symmetry. apply filter_none. apply Forall_forall.
    intros t Ht. apply rejected_if_out_of_bounds, Hall. exact Ht.
Qed.

(** C3.  For a pair with [deltaCotTheta2 - error2 > 0], the pair is
    rejected when [d = deltaCotTheta2 + error2 - 2 |deltaCotTheta| sqrt error2]
    exceeds [maxScatteringAngle2 * (1 + cotThetaB^2) * sigmaScattering^2],
    and it is rejected when [d] exceeds [p2scatter * sigmaScattering^2] with
    [p2scatter = 4 * (B^2 / S2) * pT2perRadius * (1 + cotThetaB^2)].  A pair
    with [deltaCotTheta2 - error2 <= 0] leaves by neither scattering cut. *)
Theorem scattering_cuts rM covrM covzM lb lt :
  let v := value (tripletCandidate config rM covrM covzM lb lt) in
  let error2 :=
    Er lt + Er lb
    + 2 * (cotTheta lb * cotTheta lt * covrM + covzM)
      * iDeltaR lb * iDeltaR lt in
  let deltaCotTheta := cotTheta lb - cotTheta lt in
  let d := deltaCotTheta ^ 2 + error2 - 2 * Rabs deltaCotTheta * sqrt error2 in
  let scatteringInRegion2 :=
    maxScatteringAngle2 config * (1 + cotTheta lb ^ 2)
    * sigmaScattering config ^ 2 in
  let A := (V lt - V lb) / (U lt - U lb) in
  let B := V lb - A * U lb in
  let S2 := 1 + A ^ 2 in
  let p2scatter :=
    4 * (B ^ 2 / S2) * pT2perRadius config * (1 + cotTheta lb ^ 2) in
  (deltaCotTheta ^ 2 - error2 > 0 ->
     (d > scatteringInRegion2 -> v = RejectedScatteringInRegion)
     /\ (d > p2scatter * sigmaScattering config ^ 2 -> ~ isAccepted v))
  /\ (deltaCotTheta ^ 2 - error2 <= 0 ->
      v <> RejectedScatteringInRegion /\ v <> RejectedScatteringAtPt).
Proof.
  cbv zeta.
  pose proof (tripletCandidate_cases rM covrM covzM lb lt) as Hc.
  cbv zeta in Hc.
  unfold scatteringInRegion2Of, dCotThetaMinusError2Of, deltaCotTheta2Of,
    error2Of, iSinTheta2Of, lineS2, lineB, lineA in Hc.
  set (e2 := Er lt + Er lb
             + 2 * (cotTheta lb * cotTheta lt * covrM + covzM)
               * iDeltaR lb * iDeltaR lt) in *.
  set (dc := cotTheta lb - cotTheta lt) in *.
  set (A := (V lt - V lb) / (U lt - U lb)) in *.
  replace (dc ^ 2) with (dc * dc) by ring.
  replace (1 + cotTheta lb ^ 2) with (1 + cotTheta lb * cotTheta lb) by ring.
  replace (sigmaScattering config ^ 2)
    with (sigmaScattering config * sigmaScattering config) by ring.
  replace (1 + A ^ 2) with (1 + A * A) by ring.
  replace ((V lb - A * U lb) ^ 2)
    with ((V lb - A * U lb) * (V lb - A * U lb)) by ring.
  set (d := dc * dc + e2 - 2 * Rabs dc * sqrt e2) in *.
  split.
  - intros Hpos. split.
    + intros Hd.
      destruct Hc as [(_ & _ & E)|[(N & _)|(N & _)]];
        [now rewrite E | exfalso; apply N; split; [exact Hpos|lra] ..].
    + intros Hd Hacc.
      destruct Hc as [(_ & _ & E)|[(_ & _ & E)|(_ & _ & Hc)]];
        try (rewrite E in Hacc; exact Hacc).
      destruct Hc as [(_ & E)|(_ & Hc)];
        try (rewrite E in Hacc; exact Hacc).
      destruct Hc as [(_ & _ & E)|(N & _)];
        try (rewrite E in Hacc; exact Hacc).
      apply N. split; [exact Hpos|lra].
  - intros Hnp.
    destruct Hc as [(Hpos & _)|[(_ & _ & E)|(_ & _ & Hc)]];
      [lra | rewrite E; split; discriminate |].
    destruct Hc as [(_ & E)|(_ & Hc)]; [rewrite E; split; discriminate|].
    destruct Hc as [(Hpos & _)|(_ & Hc)]; [lra|].
    destruct Hc as [(_ & E)|(_ & E)]; rewrite E; split; discriminate.
Qed.

(** C8.  Every divisor the triplet predicate divides by is non-zero.  When
    [dU = t.U - b.U] is zero the pair is rejected, either by the
    scattering-in-region cut or by the test on [dU], and no division at
    all has been evaluated. *)
Theorem triplet_never_divides_by_zero rM covrM covzM lb lt :
  let r := tripletCandidate config rM covrM covzM lb lt in
  Forall (fun divisor => divisor <> 0) (divisors r)
  /\ (U lt - U lb = 0 ->
      divisors r = []
      /\ (value r = RejectedZeroDU \/ value r = RejectedScatteringInRegion)).
Proof.
  cbv zeta.
  pose proof (tripletCandidate_cases rM covrM covzM lb lt) as Hc.
  cbv zeta in Hc.
  pose proof (lineS2_pos lb lt) as HS.
  pose proof (sqrt_lt_R0 _ HS) as HsS.
  assert (HS0 : lineS2 lb lt <> 0) by lra.
  assert (HsS0 : sqrt (lineS2 lb lt) <> 0) by lra.
  destruct Hc as [(_ & _ & E)|[(_ & HdU & E)|(_ & HdU & Hc)]].
  - rewrite E. simpl. split; [constructor|]. intros _. split; [reflexivity|].
    now right.
  - rewrite E. simpl. split; [constructor|]. intros _. split; [reflexivity|].
    now left.
  - split; [|intros H0; contradiction].
    destruct Hc as [(_ & E)|(_ & [(_ & _ & E)|(_ & [(_ & E)|(_ & E)])])];
      rewrite E; simpl; repeat constructor; assumption.
Qed.

End TripletFacts.

(** ** The index build *)

Section GridFacts.
Context {T : Type}.
Implicit Types (g : SpacePointGrid T) (isp : InternalSpacePoint T).
Implicit Types (rBins : list (list (InternalSpacePoint T))).

Lemma gridAt_gridPush g isp k :
  gridAt (gridPush g isp) k
  = if decide (globalBin g (phi isp) (isp_z isp) = k)
    then gridAt g k ++ [isp] else gridAt g k.
Proof.
  unfold gridAt at 1. unfold gridPush. simpl.
  destruct (decide (globalBin g (phi isp) (isp_z isp) = k)) as [->|Hne].
  - now rewrite lookup_insert_eq.
  - now rewrite lookup_insert_ne.
Qed.

Lemma gridAt_fold_push l g k :
  gridAt (fold_left gridPush l g) k
  = gridAt g k
    ++ filter (fun isp => globalBin g (phi isp) (isp_z isp) = k) l
  /\ globalBin (fold_left gridPush l g) = globalBin g
  /\ numLocalBins (fold_left gridPush l g) = numLocalBins g.
Proof.
  revert g. induction l as [|isp rest IH]; intros g; simpl.
  - now rewrite app_nil_r.
  - destruct (IH (gridPush g isp)) as (-> & -> & ->).
    rewrite gridAt_gridPush. simpl. split; [|split; reflexivity].
    destruct (decide (globalBin g (phi isp) (isp_z isp) = k)) as [Hk|Hk].
    + rewrite filter_cons_True by exact Hk. now rewrite <- app_assoc.
    + now rewrite filter_cons_False by exact Hk.
Qed.

Lemma flushRBins_join rBins g :
  flushRBins rBins g = fold_left gridPush (mjoin rBins) g.
Proof.
  unfold flushRBins. revert g.
  induction rBins as [|rbin rest IH]; intros g; simpl; [reflexivity|].
  now rewrite fold_left_app, IH.
Qed.

Lemma StronglySorted_filter_keeps {A} (R : A -> A -> Prop) (P : A -> Prop)
    `{forall x, Decision (P x)} (l : list A) :
  StronglySorted R l -> StronglySorted R (filter P l).
Proof.
  induction 1 as [|x rest Hrest IH Hx]; [constructor|].
  destruct (decide (P x)) as [Hp|Hp].
  - rewrite filter_cons_True by exact Hp. constructor; [exact IH|].
    apply Forall_forall. intros y Hy.
    apply list_elem_of_filter in Hy as [_ Hy].
    rewrite Forall_forall in Hx. apply Hx, Hy.
  - now rewrite filter_cons_False by exact Hp.
Qed.

(** Buckets in which bucket [i] only holds points of index [o + i],
    emptied one after the other, give a sequence sorted by index. *)
Lemma join_sorted_by_index (idx : InternalSpacePoint T -> nat) rBins o :
  (forall i rbin, rBins !! i = Some rbin ->
     Forall (fun isp => idx isp = (o + i)%nat) rbin) ->
  StronglySorted (fun a b => (idx a <= idx b)%nat) (mjoin rBins)
  /\ Forall (fun isp => (o <= idx isp)%nat) (mjoin rBins).
Proof.
  revert o. induction rBins as [|rbin rest IH]; intros o Hb; simpl.
  - split; constructor.
  - destruct (IH (S o)) as [IHs IHf].
    { intros i b' Hi. specialize (Hb (S i) b' Hi).
      eapply Forall_impl; [exact Hb|]. simpl. intros; lia. }
    specialize (Hb 0%nat rbin eq_refl). rewrite Nat.add_0_r in Hb.
    rewrite Forall_forall in Hb, IHf. split.
    + apply StronglySorted_app. split; [|split; [|exact IHs]].
      * intros a b Ha Hb'.
        rewrite (Hb a Ha). specialize (IHf b Hb'). lia.
      * clear -Hb. induction rbin as [|a rbin' IHr]; constructor.
        -- apply IHr. intros x Hx. apply Hb. now right.
        -- apply Forall_forall. intros b Hb'.
           rewrite (Hb a), (Hb b); [lia|now right|now left].
    + apply Forall_app. split; apply Forall_forall.
      * intros a Ha. rewrite (Hb a Ha). lia.
      * intros b Hb'. specialize (IHf b Hb'). lia.
Qed.

End GridFacts.

Section InitStateFacts.
Context {T : Type} `{SpacePoint T}.
Variable config : SeedfinderConfig T.
Variable binning : SpacePointGridConfig -> GridBinning.
Variable covTool : T -> R -> R -> R -> R * R.
Implicit Types (sp : T) (isp : InternalSpacePoint T).
Implicit Types (rBins : list (list (InternalSpacePoint T))).
Implicit Types (spRange : list (option T)).

Local Abbreviation internal := (internalOf config covTool).
Local Abbreviation nBins := (numRBins config).
Local Abbreviation fill := (fillRBin config covTool).

Lemma Int_part_nonneg (r : R) : 0 <= r -> (0 <= Int_part r)%Z.
Proof.
  intros Hr. destruct (base_Int_part r) as [_ Hlow].
  assert (Hgt : IZR (-1) < IZR (Int_part r)) by (simpl; lra).
  apply lt_IZR in Hgt. lia.
Qed.

(** Two non-negative radii whose buckets are in order differ by less than
    the bucket width. *)
Lemma bucket_order_radius (r1 r2 : R) :
  0 <= r1 -> 0 <= r2 -> (to_size_t r1 <= to_size_t r2)%nat -> r1 < r2 + 1.
Proof.
  unfold to_size_t. intros H1 H2 Hle.
  apply Z2Nat.inj_le in Hle; try now apply Int_part_nonneg.
  apply IZR_le in Hle.
  destruct (base_Int_part r1) as [_ Ha], (base_Int_part r2) as [Hb _]. lra.
Qed.

Lemma radius_internal_nonneg sp : 0 <= radius (internal sp).
Proof. simpl. apply sqrt_pos. Qed.

(** What an iteration of the first loop does, by cases. *)
Lemma fillRBin_cases rBins (it : option T) :
  (fill rBins it = rBins
   /\ forall sp, it = Some sp ->
        ~ inRegion config sp \/ (nBins <= rIndexOf (internal sp))%nat)
  \/ (exists sp, it = Some sp /\ inRegion config sp
        /\ (rIndexOf (internal sp) < nBins)%nat
        /\ fill rBins it
           = alter (fun rbin => rbin ++ [internal sp])
               (rIndexOf (internal sp)) rBins).
Proof.
  destruct it as [sp|]; unfold fillRBin; cbv zeta.
  2:{ left. split; [reflexivity|]. intros sp; discriminate. }
  destruct (decide (_ \/ _)) as [Hz|Hz].
  { left. split; [reflexivity|]. intros ? [= <-]. left.
    unfold inRegion. intros ((? & ?) & _). destruct Hz; lra. }
  destruct (decide (_ \/ _)) as [Hp|Hp].
  { left. split; [reflexivity|]. intros ? [= <-]. left.
    unfold inRegion. intros (_ & (? & ?)). destruct Hp; lra. }
  destruct (decide (_ <= _)%nat) as [Hr|Hr].
  { left. split; [reflexivity|]. intros ? [= <-]. right. exact Hr. }
  right. exists sp. split; [reflexivity|]. split.
  - unfold inRegion. split.
    + split; [apply Rnot_lt_le | apply Rnot_gt_le]; tauto.
    + split; [apply Rnot_lt_le | apply Rnot_gt_le]; tauto.
  - split; [unfold rIndexOf; lia | reflexivity].
Qed.

Lemma fillRBin_length rBins it : length (fill rBins it) = length rBins.
Proof.
  destruct (fillRBin_cases rBins it) as [[-> _]|(sp & _ & _ & _ & ->)];
    [reflexivity | apply length_alter].
Qed.

Lemma fill_fold_length spRange rBins :
  length (fold_left fill spRange rBins) = length rBins.
Proof.
  revert rBins. induction spRange as [|it rest IH]; intros rBins; simpl;
    [reflexivity|].
  now rewrite IH, fillRBin_length.
Qed.

Lemma elem_of_join_alter_push rBins (i : nat) (x y : InternalSpacePoint T) :
  (i < length rBins)%nat ->
  x ∈ mjoin (alter (fun rbin => rbin ++ [y]) i rBins)
  <-> x ∈ mjoin rBins \/ x = y.
Proof.
  revert i. induction rBins as [|rbin rest IH]; intros i Hi; simpl in Hi;
    [lia|].
  destruct i as [|i].
  - change (x ∈ (rbin ++ [y]) ++ mjoin rest <-> x ∈ rbin ++ mjoin rest \/ x = y).
    rewrite !elem_of_app, list_elem_of_singleton. tauto.
  - change (x ∈ rbin ++ mjoin (alter (fun rbin => rbin ++ [y]) i rest)
            <-> x ∈ rbin ++ mjoin rest \/ x = y).
    rewrite !elem_of_app, IH by lia. tauto.
Qed.

(** The points the first loop has filed, whatever their bucket. *)
Lemma filed_points spRange rBins isp :
  length rBins = nBins ->
  isp ∈ mjoin (fold_left fill spRange rBins)
  <-> isp ∈ mjoin rBins
      \/ exists sp, Some sp ∈ spRange /\ inRegion config sp
           /\ (rIndexOf (internal sp) < nBins)%nat /\ isp = internal sp.
Proof.
  revert rBins. induction spRange as [|it rest IH]; intros rBins Hlen; simpl.
  - split; [now left|]. intros [?|(sp & Hin & _)]; [assumption|].
    now apply elem_of_nil in Hin.
  - rewrite IH by (now rewrite fillRBin_length).
    destruct (fillRBin_cases rBins it) as [[-> Hskip]|(sp & -> & Hreg & Hr & ->)].
    + split.
      * intros [?|(sp & Hin & ?)]; [now left|].
        right. exists sp. split; [now right|assumption].
      * intros [?|(sp & Hin & Hreg & Hr & ->)]; [now left|].
        apply elem_of_cons in Hin as [Heq|Hin].
        -- destruct (Hskip sp (eq_sym Heq)); [contradiction|lia].
        -- right. exists sp. tauto.
    + rewrite elem_of_join_alter_push by lia. split.
      * intros [[Hold | ->] | (sp' & Hin & Hrest)].
        -- now left.
        -- right. exists sp. split; [now left|]. tauto.
        -- right. exists sp'. split; [now right|assumption].
      * intros [Hold | (sp' & Hin & Hreg' & Hr' & ->)]; [now left; left|].
        apply elem_of_cons in Hin as [Heq|Hin].
        -- injection Heq as ->. left. now right.
        -- right. exists sp'. tauto.
Qed.

(** Each bucket only holds points of its own index, of non-negative
    radius. *)
Lemma fill_fold_bucketed spRange rBins :
  (forall i rbin, rBins !! i = Some rbin ->
     Forall (fun isp => rIndexOf isp = i /\ 0 <= radius isp) rbin) ->
  forall i rbin, fold_left fill spRange rBins !! i = Some rbin ->
    Forall (fun isp => rIndexOf isp = i /\ 0 <= radius isp) rbin.
Proof.
  revert rBins. induction spRange as [|it rest IH]; intros rBins Hb; simpl;
    [exact Hb|].
  apply IH.
  destruct (fillRBin_cases rBins it) as [[-> _]|(sp & _ & _ & _ & ->)];
    [exact Hb|].
  intros i rbin. rewrite list_lookup_alter.
  destruct (decide (rIndexOf (internal sp) = i)) as [<-|Hne]; [|apply Hb].
  destruct (rBins !! rIndexOf (internal sp)) as [old|] eqn:Hold;
    [|discriminate].
  simpl. intros [= <-]. apply Forall_app. split; [now apply Hb|].
  constructor; [|constructor]. split; [reflexivity|].
  apply radius_internal_nonneg.
Qed.

Lemma StronglySorted_on {A} (R1 R2 : A -> A -> Prop) (Q : A -> Prop)
    (l : list A) :
  (forall a b, Q a -> Q b -> R1 a b -> R2 a b) ->
  Forall Q l -> StronglySorted R1 l -> StronglySorted R2 l.
Proof.
  intros Himp HQ Hs. induction Hs as [|x rest Hrest IH Hx]; [constructor|].
  apply Forall_cons in HQ as [Hqx HQ]. constructor; [now apply IH|].
  rewrite Forall_forall in Hx, HQ |- *. intros y Hy.
  apply Himp; [exact Hqx | now apply HQ | now apply Hx].
Qed.

(** The bin of a cell is what the flush of the buckets sent there. *)
Lemma initState_bin spRange bbf tbf k :
  let st := initState config binning covTool spRange bbf tbf in
  gridAt (binnedSP st) k
  = filter (fun isp => globalBin (binnedSP st) (phi isp) (isp_z isp) = k)
      (mjoin (fold_left fill spRange (replicate nBins []))).
Proof.
  cbv zeta. unfold initState. cbv zeta. simpl.
  rewrite flushRBins_join.
  match goal with
  | |- context [fold_left gridPush ?l ?g0] =>
      destruct (gridAt_fold_push l g0 k) as (-> & -> & _)
  end.
  reflexivity.
Qed.

Lemma replicate_nil_join (n : nat) :
  mjoin (replicate n (@nil (InternalSpacePoint T))) = [].
Proof. induction n as [|n IH]; [reflexivity|exact IH]. Qed.

(** A point of the region is in the index exactly when its bucket
    exists, and then in the bin of the cell of its location only. *)
Lemma indexed_iff spRange bbf tbf sp k :
  Some sp ∈ spRange -> inRegion config sp ->
  let st := initState config binning covTool spRange bbf tbf in
  internal sp ∈ gridAt (binnedSP st) k
  <-> (rIndexOf (internal sp) < nBins)%nat
      /\ k = globalBin (binnedSP st) (phi (internal sp))
               (isp_z (internal sp)).
Proof.
  intros Hin Hreg. cbv zeta. rewrite initState_bin. cbv zeta.
  rewrite list_elem_of_filter, filed_points by apply length_replicate.
  rewrite replicate_nil_join. split.
  - intros (Hk & [Hnil|(sp' & _ & _ & Hr & Heq)]).
    + now apply elem_of_nil in Hnil.
    + rewrite Heq. split; [exact Hr|]. rewrite <- Heq. now symmetry.
  - intros (Hr & ->). split; [reflexivity|]. right. exists sp. tauto.
Qed.

(** C5.  In every bin of the index [initState] returns, a point that comes
    before another has a radius below the other's plus one bucket width:
    the buckets are emptied into the grid by increasing index. *)
Theorem bins_sorted_up_to_bucket_width spRange bbf tbf k :
  StronglySorted (fun a b => radius a < radius b + 1)
    (gridAt (binnedSP (initState config binning covTool spRange bbf tbf)) k).
Proof.
  rewrite initState_bin. cbv zeta.
  apply StronglySorted_filter_keeps.
  set (rBins := fold_left fill spRange (replicate nBins [])).
  assert (Hb : forall i rbin, rBins !! i = Some rbin ->
            Forall (fun isp => rIndexOf isp = i /\ 0 <= radius isp) rbin).
  { apply fill_fold_bucketed. intros i rbin Hi.
    apply lookup_replicate in Hi as [-> _]. constructor. }
  destruct (join_sorted_by_index rIndexOf rBins 0) as [Hs _].
  { intros i rbin Hi. eapply Forall_impl; [exact (Hb i rbin Hi)|].
    simpl. tauto. }
  apply StronglySorted_on
    with (R1 := fun a b => (rIndexOf a <= rIndexOf b)%nat)
         (Q := fun isp => 0 <= radius isp); [| |exact Hs].
  - intros a b Ha Hb' Hle. now apply bucket_order_radius.
  - apply Forall_forall. intros isp Hisp.
    apply list_elem_of_join in Hisp as (rbin & Hisp & Hrbin).
    apply list_elem_of_lookup_1 in Hrbin as [i Hi].
    specialize (Hb i rbin Hi). rewrite Forall_forall in Hb.
    now apply Hb.
Qed.

(** C6, amended.  A non-null spacepoint of the region is left out of every
    bin exactly when the truncation of its beam-translated radius is at
    least the truncation of [rMax + |beamPos|], the number of buckets;
    otherwise it is in the bin of the cell of its location and in no
    other. *)
Theorem dropped_iff_bucket_missing spRange bbf tbf sp :
  Some sp ∈ spRange -> inRegion config sp ->
  let st := initState config binning covTool spRange bbf tbf in
  let isp := internalOf config covTool sp in
  ((forall k, isp ∉ gridAt (binnedSP st) k)
   <-> (Int_part (rMax config + norm2D (beamPos config))
        <= Int_part (radius isp))%Z)
  /\ ((Int_part (radius isp)
       < Int_part (rMax config + norm2D (beamPos config)))%Z ->
      forall k, isp ∈ gridAt (binnedSP st) k
                <-> k = globalBin (binnedSP st) (phi isp) (isp_z isp)).
Proof.
  intros Hin Hreg. cbv zeta.
  pose proof (Int_part_nonneg _ (radius_internal_nonneg sp)) as Hnn.
  assert (Hconv : (nBins <= rIndexOf (internal sp))%nat
                  <-> (Int_part (rMax config + norm2D (beamPos config))
                       <= Int_part (radius (internal sp)))%Z).
  { unfold numRBins, rIndexOf, to_size_t. lia. }
  split.
  - rewrite <- Hconv. split.
    + intros Hnone.
      destruct (decide (nBins <= rIndexOf (internal sp))%nat) as [?|Hlt];
        [assumption|].
      exfalso. eapply Hnone.
      apply (indexed_iff spRange bbf tbf sp _ Hin Hreg).
      split; [lia|reflexivity].
    + intros Hge k Hk.
      apply (indexed_iff spRange bbf tbf sp _ Hin Hreg) in Hk as [Hlt _].
      lia.
  - intros Hlt k.
    rewrite (indexed_iff spRange bbf tbf sp k Hin Hreg).
    split; [tauto|]. intros ->. split; [|reflexivity].
    unfold numRBins, rIndexOf, to_size_t. lia.
Qed.

(** C10.  A null pointer in the input range changes nothing: the state
    returned is the one returned for the range without it. *)
Theorem null_pointer_is_skipped (before after : list (option T)) bbf tbf :
  initState config binning covTool (before ++ None :: after) bbf tbf
  = initState config binning covTool (before ++ after) bbf tbf.
Proof.
  unfold initState. cbv zeta. rewrite !fold_left_app. reflexivity.
Qed.

End InitStateFacts.

(** ** The region scan as a whole *)

Section RegionFacts.
Context {T : Type}.
Variable config : SeedfinderConfig T.
Implicit Types (it : SeedfinderStateIterator T) (state : SeedfinderState T).

(** The slot of the region receives the middles of the current bin one
    after the other; the other slots are left alone. *)
Lemma region_slot it (middles : list (InternalSpacePoint T))
    (out : list (list (InternalSeed T))) :
  fold_left
    (fun out spM => alter (fun slot => middleStep config it slot spM)
                      (outputIndex it) out)
    middles out !! outputIndex it
  = (fun slot => fold_left (middleStep config it) middles slot)
    <$> out !! outputIndex it.
Proof.
  revert out. induction middles as [|spM rest IH]; intros out; simpl.
  - now destruct (out !! outputIndex it).
  - rewrite IH, list_lookup_alter_eq.
    now destruct (out !! outputIndex it).
Qed.

Lemma region_other_slots it (middles : list (InternalSpacePoint T))
    (out : list (list (InternalSeed T))) (j : nat) :
  j <> outputIndex it ->
  fold_left
    (fun out spM => alter (fun slot => middleStep config it slot spM)
                      (outputIndex it) out)
    middles out !! j
  = out !! j.
Proof.
  intros Hj. revert out.
  induction middles as [|spM rest IH]; intros out; simpl; [reflexivity|].
  rewrite IH. apply list_lookup_alter_ne. congruence.
Qed.

End RegionFacts.

(** ** Construction *)

Section ConstructionFacts.
Context {T : Type}.

(** C7, amended.  The constructor checks nothing: for every
    configuration, consistent or not, it returns a seed finder.  Every
    field of the given configuration is kept as given, and only the five
    derived constants are set: [pTPerHelixRadius] is [300 * bFieldInZ],
    and the other four follow their formulas wherever the square root,
    the logarithm and the divisions are defined, that is for a positive
    [radLengthPerSeed] and non-zero [minPt] and [bFieldInZ]. *)
Theorem constructor_always_succeeds (config : SeedfinderConfig T) :
  exists finder,
    Seedfinder_new config = Constructed finder
    /\ (seedFilter (m_config finder) = seedFilter config
        /\ minPt (m_config finder) = minPt config
        /\ cotThetaMax (m_config finder) = cotThetaMax config
        /\ deltaRMin (m_config finder) = deltaRMin config
        /\ deltaRMax (m_config finder) = deltaRMax config
        /\ impactMax (m_config finder) = impactMax config
        /\ sigmaScattering (m_config finder) = sigmaScattering config
        /\ collisionRegionMin (m_config finder) = collisionRegionMin config
        /\ collisionRegionMax (m_config finder) = collisionRegionMax config
        /\ phiMin (m_config finder) = phiMin config
        /\ phiMax (m_config finder) = phiMax config
        /\ zMin (m_config finder) = zMin config
        /\ zMax (m_config finder) = zMax config
        /\ rMax (m_config finder) = rMax config
        /\ bFieldInZ (m_config finder) = bFieldInZ config
        /\ beamPos (m_config finder) = beamPos config
        /\ radLengthPerSeed (m_config finder) = radLengthPerSeed config
        /\ zAlign (m_config finder) = zAlign config
        /\ rAlign (m_config finder) = rAlign config
        /\ sigmaError (m_config finder) = sigmaError config)
    /\ pTPerHelixRadius (m_config finder) = 300 * bFieldInZ config
    /\ (0 < radLengthPerSeed config ->
        highland (m_config finder)
        = 13.6 * sqrt (radLengthPerSeed config)
          * (1 + 0.038 * ln (radLengthPerSeed config)))
    /\ (0 < radLengthPerSeed config -> minPt config <> 0 ->
        maxScatteringAngle2 (m_config finder)
        = (highland (m_config finder) / minPt config) ^ 2)
    /\ (bFieldInZ config <> 0 ->
        minHelixDiameter2 (m_config finder)
        = (minPt config * 2 / pTPerHelixRadius (m_config finder)) ^ 2)
    /\ (0 < radLengthPerSeed config -> bFieldInZ config <> 0 ->
        pT2perRadius (m_config finder)
        = (highland (m_config finder)
           / pTPerHelixRadius (m_config finder)) ^ 2).
Proof.
  eexists. split; [reflexivity|]. simpl.
  split; [repeat split|]. split; [reflexivity|].
  split; [reflexivity|]. split; [intros _ _; ring|].
  split; [reflexivity|]. reflexivity.
Qed.

End ConstructionFacts.

(** ** The properties at the concrete setting *)

Section ScenarioFacts.
Import Scenario.

Lemma trackGrid_bin :
  gridAt trackGrid 0
  = [onAxisInternal 30; onAxisInternal 80; onAxisInternal 180].
Proof. unfold gridAt, trackGrid. simpl. now rewrite lookup_singleton_eq. Qed.

Lemma trackGrid_sorted k : k ∈ [0%nat] -> radiusSorted (gridAt trackGrid k).
Proof.
  intros ->%list_elem_of_singleton. rewrite trackGrid_bin.
  unfold radiusSorted.
  repeat (constructor; simpl; try lra).
Qed.

(** *** The straight central track

    The points [(30, 0, 0)], [(80, 0, 0)] and [(180, 0, 0)] of the first
    end-to-end scenario, all in one cell. *)

Ltac decide_reals :=
  repeat match goal with
    | |- context [decide ?P] =>
        destruct (decide P) as [?|?];
        [ try (exfalso; simpl in *; lra) | try (exfalso; simpl in *; lra) ]
    end.

Ltac decide_zero_divisors :=
  unfold quotient;
  repeat match goal with
    | |- context [decide (?a = 0)] =>
        destruct (decide (a = 0)) as [?|?];
        [ try (exfalso; simpl in *; lra) | try (exfalso; simpl in *; lra) ]
    end.

Lemma axis_cot_zero (d : R) : Rabs ((0 - 0) / d) = 0.
Proof. replace ((0 - 0) / d) with 0 by (unfold Rdiv; ring). apply Rabs_R0. Qed.

Example track_bottoms :
  findCompatBottomSP scenarioConfig trackGrid [0%nat] (onAxisInternal 80)
  = [onAxisInternal 30].
Proof.
  unfold findCompatBottomSP. simpl. rewrite trackGrid_bin. simpl.
  decide_zero_divisors. rewrite ?axis_cot_zero. decide_reals; reflexivity.
Qed.

Example track_tops :
  findCompatTopSP scenarioConfig trackGrid [0%nat] (onAxisInternal 80)
  = [onAxisInternal 180].
Proof.
  unfold findCompatTopSP. simpl. rewrite trackGrid_bin. simpl.
  decide_zero_divisors. rewrite ?axis_cot_zero. decide_reals; reflexivity.
Qed.

(** In a bin that is not sorted, the [break] hides the compatible point
    at radius 30 behind the point at radius 79. *)
Example unsorted_bin_loses_candidate :
  bottomBinLoop scenarioConfig 80 0 [onAxisInternal 79; onAxisInternal 30] []
  = []
  /\ bottomCompatible scenarioConfig (onAxisInternal 80) (onAxisInternal 30).
Proof.
  split.
  - simpl. decide_zero_divisors. rewrite ?axis_cot_zero. decide_reals; reflexivity.
  - unfold bottomCompatible. simpl. rewrite axis_cot_zero. lra.
Qed.

(** The straight track gives exactly one seed, of curvature and impact
    parameter 0 and with its z-origin at 0. *)
Example track_triplet_accepted :
  value (tripletCandidate scenarioConfig 80 0 0
           (transformOne (onAxisInternal 80) true (onAxisInternal 30))
           (transformOne (onAxisInternal 80) false (onAxisInternal 180)))
  = Accepted 0 0.
Proof.
  rewrite accepted_when.
  - f_equal.
    + unfold curvatureOf, lineB, lineA. simpl. unfold Rdiv. ring.
    + unfold impactOf, lineB, lineA. simpl.
      match goal with |- Rabs ?e = 0 =>
        replace e with 0 by (unfold Rdiv; ring) end.
      apply Rabs_R0.
  - unfold deltaCotTheta2Of, error2Of. simpl. lra.
  - simpl. apply Rgt_not_eq. lra.
  - unfold lineS2, lineB, lineA. simpl. nra.
  - unfold impactOf, lineB, lineA. simpl.
    match goal with |- Rabs ?e <= _ =>
      replace e with 0 by (unfold Rdiv; ring) end.
    rewrite Rabs_R0. lra.
Qed.

Example track_one_seed :
  middleStep scenarioConfig trackIterator [] (onAxisInternal 80)
  = [someSeed].
Proof.
  unfold middleStep.
  cbn [it_grid bottomBinIndices topBinIndices trackIterator].
  rewrite track_bottoms, track_tops.
  cbn [transformCoordinates app zip zip_with fold_left].
  unfold bottomStep, topLoop.
  cbn [fold_left radius covr covz onAxisInternal fst snd].
  unfold topStep. cbn [snd fst]. rewrite track_triplet_accepted.
  cbn -[transformOne]. unfold someSeed. do 2 f_equal.
  simpl. lra.
Qed.

(** The tilted track gives none: its bottom doublet points to [z = 197]. *)
Example tilted_track_no_seed :
  middleStep scenarioConfig tiltedIterator [] (atHeight 80 205) = [].
Proof.
  unfold middleStep.
  cbn [it_grid bottomBinIndices topBinIndices tiltedIterator].
  assert (E : findCompatBottomSP scenarioConfig tiltedGrid [0%nat]
                (atHeight 80 205) = []).
  { unfold findCompatBottomSP, gridAt, tiltedGrid. simpl.
    rewrite lookup_singleton_eq. simpl. decide_zero_divisors.
    rewrite (Rabs_right ((205 - 200) / (80 - 30))) by lra.
    decide_reals; reflexivity. }
  now rewrite E.
Qed.

(** The accepted top of the straight track, with what is recorded for
    it. *)
Lemma accepted_triplet_on_track :
  exists j lt,
    [(onAxisInternal 180,
      transformOne (onAxisInternal 80) false (onAxisInternal 180))] !! j
    = Some (onAxisInternal 180, lt)
    /\ impactOf 80
         (transformOne (onAxisInternal 80) true (onAxisInternal 30)) lt
       <= impactMax scenarioConfig
    /\ lineS2 (transformOne (onAxisInternal 80) true (onAxisInternal 30)) lt
       >= lineB (transformOne (onAxisInternal 80) true (onAxisInternal 30)) lt
          * lineB (transformOne (onAxisInternal 80) true (onAxisInternal 30)) lt
          * minHelixDiameter2 scenarioConfig.
Proof.
  destruct (accepted_triplets_within_bounds scenarioConfig (onAxisInternal 80)
              (transformOne (onAxisInternal 80) true (onAxisInternal 30))
              [(onAxisInternal 180,
                transformOne (onAxisInternal 80) false (onAxisInternal 180))])
    as (Hrec & _).
  destruct (Hrec 0%nat (onAxisInternal 180)) as (j & lt & Hj & _ & _ & Him & Hh & _).
  - unfold topLoop. cbn [fold_left]. unfold topStep. cbn [fst snd].
    cbn [radius covr covz onAxisInternal].
    rewrite track_triplet_accepted. reflexivity.
  - exists j, lt. split; [exact Hj|]. split; [exact Him | exact Hh].
Defined.

(** The highland constant of the scenario lies between 0 and 13.6. *)
Lemma scenario_highland_bounds : 0 <= highland scenarioConfig <= 13.6.
Proof.
  simpl.
  assert (Hs : 0 <= sqrt 0.1 <= 1).
  { split; [apply sqrt_pos|]. rewrite <- sqrt_1. apply sqrt_le_1_alt. lra. }
  assert (Hl : -9 < ln 0.1 < 0).
  { split.
    - replace 0.1 with (/ 10) by lra. rewrite ln_Rinv by lra.
      assert (ln 10 < ln (exp 9)).
      { apply ln_increasing; [lra|]. pose proof (exp_ineq1 9). lra. }
      rewrite ln_exp in *. lra.
    - rewrite <- ln_1. apply ln_increasing; lra. }
  nra.
Qed.

(** The kinked pair leaves by the scattering-in-region cut. *)
Lemma kinked_pair_rejected :
  value (tripletCandidate scenarioConfig 80 0 0 steepBottom flatTop)
  = RejectedScatteringInRegion.
Proof.
  destruct (scattering_cuts scenarioConfig 80 0 0 steepBottom flatTop)
    as [Hcut _].
  cbv zeta in Hcut.
  assert (He : Er flatTop + Er steepBottom
               + 2 * (cotTheta steepBottom * cotTheta flatTop * 0 + 0)
                 * iDeltaR steepBottom * iDeltaR flatTop = 0)
    by (simpl; lra).
  rewrite He in Hcut.
  assert (Hd : cotTheta steepBottom - cotTheta flatTop = 1) by (simpl; lra).
  rewrite Hd, sqrt_0, Rabs_R1 in Hcut.
  apply Hcut; [lra|].
  pose proof scenario_highland_bounds as Hh.
  change (maxScatteringAngle2 scenarioConfig)
    with (highland scenarioConfig / 400 * (highland scenarioConfig / 400)).
  simpl cotTheta. simpl sigmaScattering.
  set (h := highland scenarioConfig) in *. nra.
Defined.

(** The doublet builder on the straight central track, with the point at
    radius 80 as the middle: the point at radius 30 is kept as a bottom and
    the point at radius 180 as a top. *)
Lemma doublet_builder_on_track :
  onAxisInternal 30
  ∈ findCompatBottomSP scenarioConfig trackGrid [0%nat] (onAxisInternal 80)
  /\ onAxisInternal 180
     ∈ findCompatTopSP scenarioConfig trackGrid [0%nat] (onAxisInternal 80).
Proof.
  destruct (doublet_builder_keeps_exactly_compatible scenarioConfig trackGrid
              [0%nat] [0%nat] (onAxisInternal 80))
    as (_ & Hbottom & _ & Htop).
  split.
  - apply (Hbottom 0%nat); [left | apply trackGrid_sorted; left | |].
    + rewrite trackGrid_bin. left.
    + left. unfold bottomCompatible. simpl.
      replace ((0 - 0) / (80 - 30)) with 0 by lra. rewrite Rabs_R0. lra.
  - apply (Htop 0%nat); [left | apply trackGrid_sorted; left | |].
    + rewrite trackGrid_bin. right. right. left.
    + left. unfold topCompatible. simpl.
      replace ((0 - 0) / (180 - 80)) with 0 by lra. rewrite Rabs_R0. lra.
Defined.

(** C1.  The claim fails where the radial cut lets a zero distance
    through.  With [deltaRMin = 0], on the sorted bin of the straight
    track, the middle point at radius 80 is kept as its own bottom and as
    its own top, although it satisfies neither the [cotTheta] cut nor the
    z-origin cut: its [cotTheta] is zero over zero, which no comparison
    rejects. *)
Theorem middle_point_kept_as_own_partner :
  radiusSorted (gridAt trackGrid 0)
  /\ findCompatBottomSP ScenarioRegions.zeroMinConfig trackGrid [0%nat]
       (onAxisInternal 80)
     = [onAxisInternal 30; onAxisInternal 80]
  /\ findCompatTopSP ScenarioRegions.zeroMinConfig trackGrid [0%nat]
       (onAxisInternal 80)
     = [onAxisInternal 80; onAxisInternal 180]
  /\ ~ bottomCompatible ScenarioRegions.zeroMinConfig (onAxisInternal 80)
        (onAxisInternal 80)
  /\ ~ topCompatible ScenarioRegions.zeroMinConfig (onAxisInternal 80)
        (onAxisInternal 80).
Proof.
  split; [apply trackGrid_sorted; left|]. split; [|split; [|split]].
  - unfold findCompatBottomSP. simpl. rewrite trackGrid_bin. simpl.
    decide_zero_divisors. rewrite ?axis_cot_zero. decide_reals; reflexivity.
  - unfold findCompatTopSP. simpl. rewrite trackGrid_bin. simpl.
    decide_zero_divisors. rewrite ?axis_cot_zero. decide_reals; reflexivity.
  - unfold bottomCompatible. simpl. intros (Hne & _). apply Hne. lra.
  - unfold topCompatible. simpl. intros (Hne & _). apply Hne. lra.
Qed.

(** The conformal record of the bottom partner of the straight track. *)
Lemma transformCoordinates_on_track :
  transformCoordinates [onAxisInternal 30] (onAxisInternal 80) true []
  = map (conformalRecord (onAxisInternal 80) (kindOfFlag true))
      [onAxisInternal 30].
Proof.
  apply (transformCoordinates_is_conformal [onAxisInternal 30]
           (onAxisInternal 80) true).
  simpl. lra.
Defined.

Lemma atan2_on_axis (r : R) : r > 0 -> atan2 0 r = 0.
Proof.
  intros Hr. unfold atan2. destruct (decide (r > 0)); [|contradiction].
  replace (0 / r) with 0 by (unfold Rdiv; ring). apply atan_0.
Qed.

Lemma onAxis_inRegion dRMin dRMax pt rmax beam (r : R) :
  r > 0 ->
  inRegion (constructed (userConfig dRMin dRMax pt rmax beam)) (onAxis r).
Proof.
  intros Hr. unfold inRegion. simpl. rewrite atan2_on_axis by exact Hr.
  lra.
Qed.

Lemma Int_part_between (r : R) (z : Z) :
  IZR z <= r < IZR z + 1 -> Int_part r = z.
Proof. intros Hz. symmetry. apply Int_part_spec. lra. Qed.

Lemma edgePoint_radius :
  radius (internalOf offsetConfig noCovariance edgePoint) = 160.2.
Proof.
  simpl.
  replace ((160.7 - 0.5) * (160.7 - 0.5) + (0 - 0) * (0 - 0))
    with (160.2 * 160.2) by lra.
  apply sqrt_square. lra.
Qed.

Lemma offsetConfig_reach :
  rMax offsetConfig + norm2D (beamPos offsetConfig) = 160.5.
Proof.
  unfold norm2D. simpl.
  replace (0.5 * 0.5 + 0 * 0) with (0.5 * 0.5) by lra.
  rewrite sqrt_square by lra. lra.
Qed.

(** The amended drop rule at the straight track's inner point. *)
Lemma drop_rule_on_track :
  ((forall k,
      internalOf scenarioConfig noCovariance (onAxis 30)
      ∉ gridAt (binnedSP (initState scenarioConfig oneCell noCovariance
                            [Some (onAxis 30)] selfOnly selfOnly)) k)
   <-> (Int_part (rMax scenarioConfig + norm2D (beamPos scenarioConfig))
        <= Int_part (radius (internalOf scenarioConfig noCovariance
                               (onAxis 30))))%Z)
  /\ ((Int_part (radius (internalOf scenarioConfig noCovariance (onAxis 30)))
       < Int_part (rMax scenarioConfig + norm2D (beamPos scenarioConfig)))%Z ->
      forall k,
        internalOf scenarioConfig noCovariance (onAxis 30)
        ∈ gridAt (binnedSP (initState scenarioConfig oneCell noCovariance
                              [Some (onAxis 30)] selfOnly selfOnly)) k
        <-> k = globalBin
                  (binnedSP (initState scenarioConfig oneCell noCovariance
                               [Some (onAxis 30)] selfOnly selfOnly))
                  (phi (internalOf scenarioConfig noCovariance (onAxis 30)))
                  (isp_z (internalOf scenarioConfig noCovariance
                            (onAxis 30)))).
Proof.
  apply (dropped_iff_bucket_missing scenarioConfig oneCell noCovariance
           [Some (onAxis 30)] selfOnly selfOnly (onAxis 30)).
  - left.
  - apply onAxis_inRegion. lra.
Defined.

(** C6, as stated, fails.  With [rMax = 160] and a beam at [(0.5, 0)] the
    point [(160.7, 0, 0)], of translated radius 160.2, lies in the region
    and is left out of every bin, although [floor 160.2 = 160] is below
    [rMax + |beamPos| = 160.5]. *)
Lemma dropped_inside_rMax_plus_beam :
  Some edgePoint ∈ [Some edgePoint]
  /\ inRegion offsetConfig edgePoint
  /\ (forall k,
        internalOf offsetConfig noCovariance edgePoint
        ∉ gridAt (binnedSP edgeState) k)
  /\ ~ (IZR (Int_part (radius (internalOf offsetConfig noCovariance
                                 edgePoint)))
        >= rMax offsetConfig + norm2D (beamPos offsetConfig)).
Proof.
  assert (Hin : Some edgePoint ∈ [Some edgePoint]) by left.
  assert (Hreg : inRegion offsetConfig edgePoint)
    by (apply onAxis_inRegion; lra).
  assert (Hr : Int_part (radius (internalOf offsetConfig noCovariance
                                   edgePoint)) = 160%Z).
  { rewrite edgePoint_radius. apply Int_part_between. simpl. lra. }
  assert (Hn : Int_part (rMax offsetConfig + norm2D (beamPos offsetConfig))
               = 160%Z).
  { rewrite offsetConfig_reach. apply Int_part_between. simpl. lra. }
  split; [exact Hin|]. split; [exact Hreg|]. split.
  - intros k Hk. unfold edgeState in Hk.
    apply (indexed_iff offsetConfig oneCell noCovariance _ selfOnly selfOnly
             edgePoint k Hin Hreg) in Hk as [Hlt _].
    unfold rIndexOf, numRBins, to_size_t in Hlt. rewrite Hr, Hn in Hlt. lia.
  - rewrite Hr, offsetConfig_reach. simpl. lra.
Qed.

(** The constructor on the configuration of the scenario, whose
    [radLengthPerSeed], [minPt] and [bFieldInZ] are positive. *)
Lemma constructor_on_scenario :
  exists finder,
    Seedfinder_new (userConfig 5 270 400 200 (0, 0)) = Constructed finder
    /\ deltaRMin (m_config finder) = 5
    /\ maxScatteringAngle2 (m_config finder)
       = (highland (m_config finder) / 400) ^ 2
    /\ minHelixDiameter2 (m_config finder) = (400 * 2 / (300 * 0.002)) ^ 2.
Proof.
  destruct (constructor_always_succeeds (userConfig 5 270 400 200 (0, 0)))
    as (finder & Hnew & Hfields & Hptr & _ & Hmsa & Hmhd & _).
  exists finder. split; [exact Hnew|]. split; [|split].
  - destruct Hfields as (_ & _ & _ & Hmin & _). exact Hmin.
  - apply Hmsa; simpl; lra.
  - rewrite Hmhd by (simpl; lra). rewrite Hptr. reflexivity.
Defined.

(** C7, as stated, fails: a configuration with [deltaRMin > deltaRMax] and
    [minPt <= 0] is constructed without complaint. *)
Lemma inconsistent_config_is_accepted :
  inconsistentBounds badConfig /\ Seedfinder_new badConfig <> Thrown.
Proof.
  split.
  - left. simpl. lra.
  - discriminate.
Qed.

End ScenarioFacts.

(** * Further properties of the code *)

(** ** What the index holds *)

Section IndexContents.
Context {T : Type} `{SpacePoint T}.
Variable config : SeedfinderConfig T.
Variable binning : SpacePointGridConfig -> GridBinning.
Variable covTool : T -> R -> R -> R -> R * R.
Implicit Types (sp : T) (isp : InternalSpacePoint T).
Implicit Types (rBins : list (list (InternalSpacePoint T))).
Implicit Types (spRange : list (option T)).

Local Abbreviation internal := (internalOf config covTool).
Local Abbreviation nBins := (numRBins config).
Local Abbreviation fill := (fillRBin config covTool).
Local Abbreviation points := (indexedPoints config covTool).

Lemma indexedPoints_cons_kept sp spRange :
  inRegion config sp -> (rIndexOf (internal sp) < nBins)%nat ->
  points (Some sp :: spRange) = internal sp :: points spRange.
Proof.
  intros Hreg Hr. unfold indexedPoints. simpl.
  rewrite filter_cons_True by (split; assumption). reflexivity.
Qed.

Lemma indexedPoints_cons_skipped (it : option T) spRange :
  (forall sp, it = Some sp ->
     ~ inRegion config sp \/ (nBins <= rIndexOf (internal sp))%nat) ->
  points (it :: spRange) = points spRange.
Proof.
  intros Hskip. unfold indexedPoints. destruct it as [sp|]; simpl;
    [|reflexivity].
  rewrite filter_cons_False; [reflexivity|].
  intros [Hreg Hr]. destruct (Hskip sp eq_refl); [contradiction|lia].
Qed.

(** Bucket [i] after the first loop: what it held, then the kept points
    of index [i] in input order. *)
Lemma fill_fold_lookup spRange rBins (i : nat) :
  length rBins = nBins -> (i < nBins)%nat ->
  fold_left fill spRange rBins !! i
  = Some (default [] (rBins !! i)
          ++ filter (fun isp => rIndexOf isp = i) (points spRange)).
Proof.
  revert rBins. induction spRange as [|it rest IH]; intros rBins Hlen Hi.
  - simpl. destruct (lookup_lt_is_Some_2 rBins i) as [rbin Hrbin]; [lia|].
    rewrite Hrbin. simpl. now rewrite app_nil_r.
  - simpl. rewrite IH by (rewrite ?fillRBin_length; assumption).
    destruct (fillRBin_cases config covTool rBins it)
      as [[-> Hskip]|(sp & -> & Hreg & Hr & ->)].
    + now rewrite indexedPoints_cons_skipped.
    + rewrite indexedPoints_cons_kept by assumption.
      rewrite list_lookup_alter.
      destruct (decide (rIndexOf (internal sp) = i)) as [<-|Hne].
      * rewrite filter_cons_True by reflexivity.
        destruct (lookup_lt_is_Some_2 rBins (rIndexOf (internal sp)))
          as [rbin Hrbin]; [lia|].
        rewrite Hrbin. simpl. now rewrite <- app_assoc.
      * now rewrite filter_cons_False.
Qed.

Lemma join_of_lookups {A} (ls : list (list A)) (f : nat -> list A) (o : nat) :
  (forall i, (i < length ls)%nat -> ls !! i = Some (f (o + i)%nat)) ->
  mjoin ls = seq o (length ls) ≫= f.
Proof.
  revert o. induction ls as [|l rest IH]; intros o Hl; [reflexivity|].
  change (l ++ mjoin rest = f o ++ (seq (S o) (length rest) ≫= f)).
  rewrite <- (IH (S o)).
  - specialize (Hl 0%nat ltac:(simpl; lia)). rewrite Nat.add_0_r in Hl.
    now injection Hl as ->.
  - intros i Hi. specialize (Hl (S i) ltac:(simpl; lia)).
    now rewrite Nat.add_succ_r in Hl.
Qed.

Lemma filter_bind {A B} (P : B -> Prop) `{forall x, Decision (P x)}
    (f : A -> list B) (l : list A) :
  filter P (l ≫= f) = l ≫= fun a => filter P (f a).
Proof.
  induction l as [|a rest IH]; [reflexivity|].
  change (filter P (f a ++ (rest ≫= f))
          = filter P (f a) ++ (rest ≫= fun a => filter P (f a))).
  now rewrite filter_app, IH.
Qed.

(** The buckets after the first loop, joined. *)
Lemma filled_buckets_joined spRange :
  mjoin (fold_left fill spRange (replicate nBins []))
  = seq 0 nBins ≫= fun i => filter (fun isp => rIndexOf isp = i)
                               (points spRange).
Proof.
  assert (Hlen : length (fold_left fill spRange (replicate nBins [])) = nBins)
    by (now rewrite fill_fold_length, length_replicate).
  pose proof (join_of_lookups
                (fold_left fill spRange (replicate nBins []))
                (fun i => filter (fun isp => rIndexOf isp = i)
                            (points spRange)) 0) as E.
  rewrite Hlen in E. apply E. intros i Hi.
  rewrite fill_fold_lookup by (rewrite ?length_replicate; lia).
  rewrite lookup_replicate_2 by lia. reflexivity.
Qed.

Lemma initState_bin_buckets spRange bbf tbf k :
  let st := initState config binning covTool spRange bbf tbf in
  gridAt (binnedSP st) k
  = seq 0 nBins ≫= fun i =>
      filter (fun isp => globalBin (binnedSP st) (phi isp) (isp_z isp) = k)
        (filter (fun isp => rIndexOf isp = i) (points spRange)).
Proof.
  cbv zeta. rewrite (initState_bin config binning covTool). cbv zeta.
  now rewrite filled_buckets_joined, filter_bind.
Qed.

Lemma points_origin spRange isp :
  isp ∈ points spRange ->
  exists sp, Some sp ∈ spRange /\ isp = internal sp
             /\ inRegion config sp
             /\ (rIndexOf (internal sp) < nBins)%nat.
Proof.
  unfold indexedPoints. intros Hin.
  apply list_elem_of_fmap in Hin as (sp & -> & Hsp).
  apply list_elem_of_filter in Hsp as [[Hreg Hr] Hsp].
  apply list_elem_of_omap in Hsp as (it & Hit & Heq).
  simpl in Heq. subst it.
  exists sp. split; [exact Hit|]. split; [reflexivity|]. split; assumption.
Qed.

Lemma below_reach (r reach : R) :
  0 <= r -> (to_size_t r < to_size_t reach)%nat -> r < reach.
Proof.
  unfold to_size_t. intros Hr Hlt.
  pose proof (Int_part_nonneg r Hr) as Hnn.
  assert (Hz : (Int_part r + 1 <= Int_part reach)%Z) by lia.
  apply IZR_le in Hz. rewrite plus_IZR in Hz.
  destruct (base_Int_part r) as [_ Ha], (base_Int_part reach) as [Hb _].
  simpl in Hz. lra.
Qed.

(** X1.  The bin of a cell lists the kept points of the cell bucket by
    bucket, in increasing index of the radius bucket, and within a bucket
    in the order of the input range. *)
Theorem index_is_bucket_sort spRange bbf tbf k :
  let st := initState config binning covTool spRange bbf tbf in
  gridAt (binnedSP st) k
  = seq 0 (numRBins config) ≫= fun i =>
      filter (fun isp => globalBin (binnedSP st) (phi isp) (isp_z isp) = k)
        (filter (fun isp => rIndexOf isp = i)
           (indexedPoints config covTool spRange)).
Proof. apply initState_bin_buckets. Qed.

(** X2.  Whatever a bin holds was built from a non-null entry of the input
    range that lies in the region: its z is within [zMin, zMax], its
    azimuth within [phiMin, phiMax], its beam-translated radius is
    non-negative and strictly below [rMax + |beamPos|]; and the bin is the
    one of the cell of its location. *)
Theorem indexed_points_lie_in_region spRange bbf tbf k isp :
  isp ∈ gridAt (binnedSP (initState config binning covTool spRange bbf tbf)) k ->
  exists sp,
    Some sp ∈ spRange
    /\ isp = internalOf config covTool sp
    /\ zMin config <= isp_z isp <= zMax config
    /\ phiMin config <= atan2 (sp_y sp) (sp_x sp) <= phiMax config
    /\ 0 <= radius isp < rMax config + norm2D (beamPos config)
    /\ k = globalBin
             (binnedSP (initState config binning covTool spRange bbf tbf))
             (phi isp) (isp_z isp).
Proof.
  rewrite initState_bin_buckets. cbv zeta. intros Hin.
  apply list_elem_of_bind in Hin as (i & Hin & _).
  apply list_elem_of_filter in Hin as [Hk Hin].
  apply list_elem_of_filter in Hin as [_ Hin].
  apply points_origin in Hin as (sp & Hsp & -> & [Hz Hphi] & Hr).
  exists sp. split; [exact Hsp|]. split; [reflexivity|].
  split; [exact Hz|]. split; [exact Hphi|]. split; [|now symmetry].
  split; [apply radius_internal_nonneg|].
  apply below_reach; [apply radius_internal_nonneg | exact Hr].
Qed.

Lemma initState_bin_bucket_sorted spRange bbf tbf k :
  StronglySorted (fun a b => (rIndexOf a <= rIndexOf b)%nat)
    (gridAt (binnedSP (initState config binning covTool spRange bbf tbf)) k).
Proof.
  rewrite (initState_bin config binning covTool). cbv zeta.
  apply StronglySorted_filter_keeps.
  destruct (join_sorted_by_index rIndexOf
              (fold_left fill spRange (replicate nBins [])) 0) as [Hs _];
    [|exact Hs].
  intros i rbin Hi.
  eapply Forall_impl;
    [apply (fill_fold_bucketed config covTool spRange (replicate nBins []))
       with (i := i); [|exact Hi] |].
  - intros j rb Hj. apply lookup_replicate in Hj as [-> _]. constructor.
  - simpl. tauto.
Qed.

Lemma initState_bin_points spRange bbf tbf k isp :
  isp ∈ gridAt (binnedSP (initState config binning covTool spRange bbf tbf)) k ->
  isp ∈ points spRange /\ 0 <= radius isp.
Proof.
  rewrite initState_bin_buckets. cbv zeta. intros Hin.
  apply list_elem_of_bind in Hin as (i & Hin & _).
  apply list_elem_of_filter in Hin as [_ Hin].
  apply list_elem_of_filter in Hin as [_ Hin].
  split; [exact Hin|].
  apply points_origin in Hin as (sp & _ & -> & _).
  apply radius_internal_nonneg.
Qed.

(** X3.  In every bin the points are in non-decreasing order of the
    truncation of their radius. *)
Theorem bins_sorted_by_bucket_index spRange bbf tbf k :
  StronglySorted (fun a b => (rIndexOf a <= rIndexOf b)%nat)
    (gridAt (binnedSP (initState config binning covTool spRange bbf tbf)) k).
Proof. apply initState_bin_bucket_sorted. Qed.

Lemma join_alter_push_perm rBins (i : nat) (y : InternalSpacePoint T) :
  (i < length rBins)%nat ->
  mjoin (alter (fun rbin => rbin ++ [y]) i rBins) ≡ₚ y :: mjoin rBins.
Proof.
  revert i. induction rBins as [|rbin rest IH]; intros i Hi; simpl in Hi;
    [lia|].
  destruct i as [|i].
  - change ((rbin ++ [y]) ++ mjoin rest ≡ₚ y :: rbin ++ mjoin rest).
    rewrite <- app_assoc. simpl. now rewrite Permutation_middle.
  - change (rbin ++ mjoin (alter (fun rbin => rbin ++ [y]) i rest)
            ≡ₚ y :: rbin ++ mjoin rest).
    rewrite IH by lia. now rewrite Permutation_middle.
Qed.

Lemma filled_points_perm spRange rBins :
  length rBins = nBins ->
  mjoin (fold_left fill spRange rBins) ≡ₚ points spRange ++ mjoin rBins.
Proof.
  revert rBins. induction spRange as [|it rest IH]; intros rBins Hlen; simpl.
  - reflexivity.
  - rewrite IH by (now rewrite fillRBin_length).
    destruct (fillRBin_cases config covTool rBins it)
      as [[-> Hskip]|(sp & -> & Hreg & Hr & ->)].
    + now rewrite indexedPoints_cons_skipped.
    + rewrite indexedPoints_cons_kept by assumption.
      rewrite join_alter_push_perm by lia. simpl.
      now rewrite Permutation_middle.
Qed.

Lemma points_perm spRange spRange' :
  spRange ≡ₚ spRange' -> points spRange ≡ₚ points spRange'.
Proof.
  intros Hp. unfold indexedPoints.
  apply fmap_Permutation, filter_Permutation. now apply omap_Permutation.
Qed.

(** X4.  Each bin holds every kept point of its cell as many times as the
    input range does; reordering the input range reorders the points of a
    bin and changes nothing else. *)
Theorem bins_up_to_input_order spRange spRange' bbf tbf k :
  spRange ≡ₚ spRange' ->
  let st := initState config binning covTool spRange bbf tbf in
  let st' := initState config binning covTool spRange' bbf tbf in
  gridAt (binnedSP st) k
  ≡ₚ filter (fun isp => globalBin (binnedSP st) (phi isp) (isp_z isp) = k)
       (indexedPoints config covTool spRange)
  /\ gridAt (binnedSP st) k ≡ₚ gridAt (binnedSP st') k.
Proof.
  intros Hp. cbv zeta.
  assert (Hbin : forall l,
            gridAt (binnedSP (initState config binning covTool l bbf tbf)) k
            ≡ₚ filter (fun isp =>
                         binning_globalBin (binning (gridConfOf config))
                           (phi isp) (isp_z isp) = k)
                 (points l)).
  { intros l.
    rewrite (initState_bin config binning covTool l bbf tbf k). cbv zeta.
    rewrite filled_points_perm by apply length_replicate.
    rewrite replicate_nil_join, app_nil_r.
    unfold initState. cbv zeta. simpl. rewrite flushRBins_join.
    match goal with
    | |- context [globalBin (fold_left gridPush ?l0 ?g0)] =>
        destruct (gridAt_fold_push l0 g0 k) as (_ & -> & _)
    end.
    reflexivity. }
  split.
  - rewrite Hbin. unfold initState. cbv zeta. simpl.
    rewrite flushRBins_join.
    match goal with
    | |- context [globalBin (fold_left gridPush ?l0 ?g0)] =>
        destruct (gridAt_fold_push l0 g0 k) as (_ & -> & _)
    end.
    reflexivity.
  - rewrite !Hbin. now rewrite (points_perm _ _ Hp).
Qed.

(** X5.  The state returned has one output slot per cell of the binning
    chosen for the configuration, every slot empty, and its grid has that
    binning. *)
Theorem one_empty_slot_per_cell spRange bbf tbf :
  let st := initState config binning covTool spRange bbf tbf in
  let cells := binning_numLocalBins (binning (gridConfOf config)) in
  numLocalBins (binnedSP st) = cells
  /\ length (outputVec st) = (cells.1 * cells.2)%nat
  /\ Forall (fun slot => slot = []) (outputVec st).
Proof.
  cbv zeta. unfold initState. cbv zeta. simpl. rewrite flushRBins_join.
  match goal with
  | |- context [numLocalBins (fold_left gridPush ?l0 ?g0)] =>
      destruct (gridAt_fold_push l0 g0 0%nat) as (_ & _ & ->)
  end.
  simpl. split; [reflexivity|]. split; [apply length_replicate|].
  apply Forall_forall. intros slot Hslot.
  now apply elem_of_replicate in Hslot as [-> _].
Qed.

(** X6.  When [rMax + |beamPos|] is below one millimetre there is no
    radius bucket, and the index stays empty whatever the input. *)
Theorem no_bucket_no_index spRange bbf tbf k :
  0 <= rMax config + norm2D (beamPos config) < 1 ->
  gridAt (binnedSP (initState config binning covTool spRange bbf tbf)) k = [].
Proof.
  intros Hreach. rewrite initState_bin_buckets. cbv zeta.
  assert (E : nBins = 0%nat).
  { unfold numRBins, to_size_t.
    rewrite (Int_part_between _ 0%Z) by (simpl; lra). reflexivity. }
  now rewrite E.
Qed.

(** X24.  With a positive [deltaRMin], when the kept points that share a
    radius bucket share their radius, every bin of the index is sorted by
    non-decreasing radius, and the doublet builder keeps exactly the
    partners of the candidate cells that pass its cuts. *)
Theorem uniform_buckets_give_exact_doublets
    spRange bbf tbf bottomIdxs topIdxs (m : InternalSpacePoint T) :
  0 < deltaRMin config ->
  (forall a b,
     a ∈ indexedPoints config covTool spRange ->
     b ∈ indexedPoints config covTool spRange ->
     rIndexOf a = rIndexOf b -> radius a = radius b) ->
  let grid := binnedSP (initState config binning covTool spRange bbf tbf) in
  (forall k, radiusSorted (gridAt grid k))
  /\ (forall b,
        b ∈ findCompatBottomSP config grid bottomIdxs m
        <-> (exists k, k ∈ bottomIdxs /\ b ∈ gridAt grid k)
            /\ bottomCompatible config m b)
  /\ (forall t,
        t ∈ findCompatTopSP config grid topIdxs m
        <-> (exists k, k ∈ topIdxs /\ t ∈ gridAt grid k)
            /\ topCompatible config m t).
Proof.
  intros Hmin Hsame. cbv zeta.
  assert (Hs : forall k,
            StronglySorted (fun a b => radius a <= radius b)
              (gridAt (binnedSP (initState config binning covTool spRange
                                   bbf tbf)) k)).
  { intros k.
    apply StronglySorted_on
      with (R1 := fun a b => (rIndexOf a <= rIndexOf b)%nat)
           (Q := fun isp => isp ∈ points spRange /\ 0 <= radius isp).
    - intros a b [Ha Hra] [Hb Hrb] Hle.
      destruct (decide (rIndexOf a = rIndexOf b)) as [Heq|Hne].
      + rewrite (Hsame a b Ha Hb Heq). lra.
      + apply Rlt_le, below_reach; [exact Hra|].
        unfold rIndexOf in *. lia.
    - apply Forall_forall. intros isp. apply initState_bin_points.
    - apply initState_bin_bucket_sorted. }
  assert (Hself : forall p, ~ selfDoublet config m p)
    by (intros p ((Hle & _) & _); lra).
  split; [intros k; apply StronglySorted_Sorted, Hs|].
  rewrite findCompatBottomSP_cells, findCompatTopSP_cells. split.
  - intros b. rewrite list_elem_of_bind. split.
    + intros (k & Hb & Hk). apply bottomBinLoop_sound in Hb as [Hin Hc].
      split; [now exists k|]. destruct Hc as [Hc|Hc]; [exact Hc|].
      now apply Hself in Hc.
    + intros ((k & Hk & Hin) & Hc). exists k. split; [|exact Hk].
      rewrite bottomBinLoop_sorted by apply Hs.
      simpl. apply list_elem_of_filter. split; [now left|exact Hin].
  - intros t. rewrite list_elem_of_bind. split.
    + intros (k & Ht & Hk). apply topBinLoop_sound in Ht as [Hin Hc].
      split; [now exists k|]. destruct Hc as [Hc|Hc]; [exact Hc|].
      now apply Hself in Hc.
    + intros ((k & Hk & Hin) & Hc). exists k. split; [|exact Hk].
      rewrite topBinLoop_sorted by apply Hs.
      simpl. apply list_elem_of_filter. split; [now left|exact Hin].
Qed.

End IndexContents.

(** ** More on the doublet builder *)

Section DoubletCoverage.
Context {T : Type}.
Variable config : SeedfinderConfig T.
Implicit Types (m b t : InternalSpacePoint T).
Implicit Types (bin : list (InternalSpacePoint T)).

(** In a bin sorted up to [tol], a compatible bottom the loop does not
    keep sits behind the [break], less than [tol] above [deltaRMin]. *)
Lemma bottom_missed_is_marginal (tol : R) m bin b :
  StronglySorted (fun a c => radius a < radius c + tol) bin ->
  b ∈ bin -> bottomCompatible config m b ->
  b ∈ bottomBinLoop config (radius m) (isp_z m) bin []
  \/ radius m - radius b < deltaRMin config + tol.
Proof.
  intros Hs. induction Hs as [|b' rest Hrest IH Hb']; intros Hin Hc.
  { now apply elem_of_nil in Hin. }
  assert (Hc' := Hc). unfold bottomCompatible in Hc'. simpl in Hc'.
  assert (Htail : b ∈ rest ->
            b ∈ bottomBinLoop config (radius m) (isp_z m) rest []
            \/ radius m - radius b < deltaRMin config + tol)
    by (intros Hr; now apply IH).
  rewrite bottomBinLoop_cons.
  destruct (decide (radius m - radius b' > deltaRMax config)) as [Hfar|Hfar].
  { apply elem_of_cons in Hin as [->|Hin]; [lra | now apply Htail]. }
  destruct (decide (radius m - radius b' < deltaRMin config)) as [Hnear|Hnear].
  { right. apply elem_of_cons in Hin as [->|Hin]; [lra|].
    rewrite Forall_forall in Hb'. specialize (Hb' b Hin). lra. }
  destruct (decide (_ \/ _)) as [Hkeep|Hskip].
  - rewrite bottomBinLoop_acc. simpl.
    apply elem_of_cons in Hin as [->|Hin]; [left; now left|].
    destruct (Htail Hin) as [Hk|Hm]; [left; now right | now right].
  - apply elem_of_cons in Hin as [->|Hin]; [|now apply Htail].
    exfalso. apply Hskip. now left.
Qed.

Lemma top_missed_is_marginal (tol : R) m bin t :
  StronglySorted (fun a c => radius a < radius c + tol) bin ->
  t ∈ bin -> topCompatible config m t ->
  t ∈ topBinLoop config (radius m) (isp_z m) bin []
  \/ radius t - radius m > deltaRMax config - tol.
Proof.
  intros Hs. induction Hs as [|t' rest Hrest IH Ht']; intros Hin Hc.
  { now apply elem_of_nil in Hin. }
  assert (Hc' := Hc). unfold topCompatible in Hc'. simpl in Hc'.
  assert (Htail : t ∈ rest ->
            t ∈ topBinLoop config (radius m) (isp_z m) rest []
            \/ radius t - radius m > deltaRMax config - tol)
    by (intros Hr; now apply IH).
  rewrite topBinLoop_cons.
  destruct (decide (radius t' - radius m < deltaRMin config)) as [Hnear|Hnear].
  { apply elem_of_cons in Hin as [->|Hin]; [lra | now apply Htail]. }
  destruct (decide (radius t' - radius m > deltaRMax config)) as [Hfar|Hfar].
  { right. apply elem_of_cons in Hin as [->|Hin]; [lra|].
    rewrite Forall_forall in Ht'. specialize (Ht' t Hin). lra. }
  destruct (decide (_ \/ _)) as [Hkeep|Hskip].
  - rewrite topBinLoop_acc. simpl.
    apply elem_of_cons in Hin as [->|Hin]; [left; now left|].
    destruct (Htail Hin) as [Hk|Hm]; [left; now right | now right].
  - apply elem_of_cons in Hin as [->|Hin]; [|now apply Htail].
    exfalso. apply Hskip. now left.
Qed.

(** A kept partner passed every cut, or sits at the radius and height of
    the middle point while the radial cut lets a zero distance through. *)
Lemma kept_bottom_compatible grid idxs m b :
  b ∈ findCompatBottomSP config grid idxs m ->
  bottomCompatible config m b \/ selfDoublet config m b.
Proof.
  rewrite findCompatBottomSP_cells. intros Hb.
  apply list_elem_of_bind in Hb as (k & Hb & _).
  now apply bottomBinLoop_sound in Hb.
Qed.

Lemma kept_top_compatible grid idxs m t :
  t ∈ findCompatTopSP config grid idxs m ->
  topCompatible config m t \/ selfDoublet config m t.
Proof.
  rewrite findCompatTopSP_cells. intros Ht.
  apply list_elem_of_bind in Ht as (k & Ht & _).
  now apply topBinLoop_sound in Ht.
Qed.

(** X8.  With a positive [deltaRMin], every kept bottom lies strictly
    inside the radius of the middle point and every kept top strictly
    outside: the middle point is never its own partner and no point is
    kept both as bottom and as top. *)
Theorem partners_strictly_ordered grid bottomIdxs topIdxs m :
  0 < deltaRMin config ->
  (forall b, b ∈ findCompatBottomSP config grid bottomIdxs m ->
             radius b < radius m)
  /\ (forall t, t ∈ findCompatTopSP config grid topIdxs m ->
                radius m < radius t)
  /\ (m ∉ findCompatBottomSP config grid bottomIdxs m)
  /\ (m ∉ findCompatTopSP config grid topIdxs m)
  /\ (forall p, p ∈ findCompatBottomSP config grid bottomIdxs m ->
                p ∉ findCompatTopSP config grid topIdxs m).
Proof.
  intros Hmin.
  assert (Hb : forall b, b ∈ findCompatBottomSP config grid bottomIdxs m ->
                         radius b < radius m).
  { intros b Hb. apply kept_bottom_compatible in Hb as [Hb|Hb].
    - unfold bottomCompatible in Hb. simpl in Hb. lra.
    - unfold selfDoublet in Hb. lra. }
  assert (Ht : forall t, t ∈ findCompatTopSP config grid topIdxs m ->
                         radius m < radius t).
  { intros t Ht. apply kept_top_compatible in Ht as [Ht|Ht].
    - unfold topCompatible in Ht. simpl in Ht. lra.
    - unfold selfDoublet in Ht. lra. }
  split; [exact Hb|]. split; [exact Ht|]. split; [|split].
  - intros Hm. apply Hb in Hm. lra.
  - intros Hm. apply Ht in Hm. lra.
  - intros p Hpb Hpt. apply Hb in Hpb. apply Ht in Hpt. lra.
Qed.

Lemma nil_of_no_element {A} (l : list A) : (forall x, x ∉ l) -> l = [].
Proof.
  destruct l as [|x rest]; [reflexivity|]. intros Hno.
  exfalso. apply (Hno x). now left.
Qed.

(** X9.  With an empty radial range, [deltaRMin > deltaRMax], the doublet
    builder keeps no partner at all; with a positive [deltaRMin], the same
    holds for a negative [cotThetaMax] and for
    [collisionRegionMin > collisionRegionMax]. *)
Theorem empty_cut_range_keeps_nothing grid bottomIdxs topIdxs m :
  deltaRMin config > deltaRMax config
  \/ (0 < deltaRMin config
      /\ (cotThetaMax config < 0
          \/ collisionRegionMin config > collisionRegionMax config)) ->
  findCompatBottomSP config grid bottomIdxs m = []
  /\ findCompatTopSP config grid topIdxs m = [].
Proof.
  intros Hempty. split; apply nil_of_no_element; intros p Hp.
  - apply kept_bottom_compatible in Hp as [Hp|Hp].
    + unfold bottomCompatible in Hp.
      simpl in Hp. destruct Hp as (Hne & Hr & Hcot & Hz).
      pose proof (Rabs_pos ((isp_z m - isp_z p) / (radius m - radius p))).
      destruct Hempty as [?|[? [?|?]]]; lra.
    + unfold selfDoublet in Hp. destruct Hempty as [?|[? _]]; lra.
  - apply kept_top_compatible in Hp as [Hp|Hp].
    + unfold topCompatible in Hp.
      simpl in Hp. destruct Hp as (Hne & Hr & Hcot & Hz).
      pose proof (Rabs_pos ((isp_z p - isp_z m) / (radius p - radius m))).
      destruct Hempty as [?|[? [?|?]]]; lra.
    + unfold selfDoublet in Hp. destruct Hempty as [?|[? _]]; lra.
Qed.

Lemma bottomBinLoop_sublist rM zM bin :
  bottomBinLoop config rM zM bin [] `sublist_of` bin.
Proof.
  induction bin as [|b rest IH]; simpl; [constructor|].
  repeat (destruct (decide _));
    try (now apply sublist_cons); try apply sublist_nil_l.
  destruct (quotient _ _); repeat (destruct (decide _));
    try (now apply sublist_cons);
    rewrite bottomBinLoop_acc; simpl; now apply sublist_skip.
Qed.

Lemma topBinLoop_sublist rM zM bin :
  topBinLoop config rM zM bin [] `sublist_of` bin.
Proof.
  induction bin as [|t rest IH]; simpl; [constructor|].
  repeat (destruct (decide _));
    try (now apply sublist_cons); try apply sublist_nil_l.
  destruct (quotient _ _); repeat (destruct (decide _));
    try (now apply sublist_cons);
    rewrite topBinLoop_acc; simpl; now apply sublist_skip.
Qed.

Lemma bind_sublist {A B} (f g : A -> list B) (l : list A) :
  (forall a, f a `sublist_of` g a) -> (l ≫= f) `sublist_of` (l ≫= g).
Proof.
  intros Hfg. induction l as [|a rest IH]; [constructor|].
  change ((f a ++ (rest ≫= f)) `sublist_of` (g a ++ (rest ≫= g))).
  now apply sublist_app.
Qed.

(** X23.  The kept bottoms and the kept tops are taken from the bins of
    the candidate cells without reordering or repetition: each list is a
    subsequence of the candidate bins laid end to end in the order of the
    cell indices. *)
Theorem kept_partners_in_bin_order grid bottomIdxs topIdxs m :
  findCompatBottomSP config grid bottomIdxs m
  `sublist_of` (bottomIdxs ≫= gridAt grid)
  /\ findCompatTopSP config grid topIdxs m
     `sublist_of` (topIdxs ≫= gridAt grid).
Proof.
  rewrite findCompatBottomSP_cells, findCompatTopSP_cells.
  split; apply bind_sublist; intros k;
    [apply bottomBinLoop_sublist | apply topBinLoop_sublist].
Qed.

End DoubletCoverage.

Section DoubletOnIndex.
Context {T : Type} `{SpacePoint T}.
Variable config : SeedfinderConfig T.
Variable binning : SpacePointGridConfig -> GridBinning.
Variable covTool : T -> R -> R -> R -> R * R.

Lemma initState_bin_near_sorted spRange bbf tbf k :
  StronglySorted (fun a b => radius a < radius b + 1)
    (gridAt (binnedSP (initState config binning covTool spRange bbf tbf)) k).
Proof.
  rewrite (initState_bin config binning covTool). cbv zeta.
  apply StronglySorted_filter_keeps.
  set (rBins := fold_left (fillRBin config covTool) spRange
                  (replicate (numRBins config) [])).
  assert (Hb : forall i rbin, rBins !! i = Some rbin ->
            Forall (fun isp => rIndexOf isp = i /\ 0 <= radius isp) rbin).
  { apply fill_fold_bucketed. intros i rbin Hi.
    apply lookup_replicate in Hi as [-> _]. constructor. }
  destruct (join_sorted_by_index rIndexOf rBins 0) as [Hs _].
  { intros i rbin Hi. eapply Forall_impl; [exact (Hb i rbin Hi)|].
    simpl. tauto. }
  apply StronglySorted_on
    with (R1 := fun a b => (rIndexOf a <= rIndexOf b)%nat)
         (Q := fun isp => 0 <= radius isp); [| |exact Hs].
  - intros a b Ha Hb' Hle. now apply bucket_order_radius.
  - apply Forall_forall. intros isp Hisp.
    apply list_elem_of_join in Hisp as (rbin & Hisp & Hrbin).
    apply list_elem_of_lookup_1 in Hrbin as [i Hi].
    specialize (Hb i rbin Hi). rewrite Forall_forall in Hb.
    now apply Hb.
Qed.

(** X7.  On the index [initState] builds, whose bins are sorted only up
    to the bucket width, the [break] of the doublet builder can hide a
    compatible partner, but only a marginal one: a compatible bottom that
    is not kept has [rM - rB < deltaRMin + 1], and a compatible top that
    is not kept has [rT - rM > deltaRMax - 1]. *)
Theorem missed_partners_are_marginal spRange bbf tbf bottomIdxs topIdxs
    (m : InternalSpacePoint T) :
  let grid := binnedSP (initState config binning covTool spRange bbf tbf) in
  (forall k b,
     k ∈ bottomIdxs -> b ∈ gridAt grid k -> bottomCompatible config m b ->
     b ∈ findCompatBottomSP config grid bottomIdxs m
     \/ radius m - radius b < deltaRMin config + 1)
  /\ (forall k t,
        k ∈ topIdxs -> t ∈ gridAt grid k -> topCompatible config m t ->
        t ∈ findCompatTopSP config grid topIdxs m
        \/ radius t - radius m > deltaRMax config - 1).
Proof.
  cbv zeta. rewrite findCompatBottomSP_cells, findCompatTopSP_cells.
  split.
  - intros k b Hk Hin Hc.
    destruct (bottom_missed_is_marginal config 1 m _ b
                (initState_bin_near_sorted spRange bbf tbf k) Hin Hc)
      as [Hkept|Hm]; [left|now right].
    apply list_elem_of_bind. now exists k.
  - intros k t Hk Hin Hc.
    destruct (top_missed_is_marginal config 1 m _ t
                (initState_bin_near_sorted spRange bbf tbf k) Hin Hc)
      as [Hkept|Hm]; [left|now right].
    apply list_elem_of_bind. now exists k.
Qed.

End DoubletOnIndex.

(** ** More on the region scan *)

Section RegionCoverage.
Context {T : Type}.
Variable config : SeedfinderConfig T.
Implicit Types (it : SeedfinderStateIterator T) (state : SeedfinderState T).

Lemma middleStep_without_doublet it slot (spM : InternalSpacePoint T) :
  findCompatBottomSP config (it_grid it) (bottomBinIndices it) spM = []
  \/ findCompatTopSP config (it_grid it) (topBinIndices it) spM = [] ->
  middleStep config it slot spM = slot.
Proof.
  intros Hnone. unfold middleStep.
  destruct (findCompatBottomSP _ _ _ _) as [|b bs]; [reflexivity|].
  destruct Hnone as [Hb|Ht]; [discriminate|]. now rewrite Ht.
Qed.

Lemma region_length it (middles : list (InternalSpacePoint T))
    (out : list (list (InternalSeed T))) :
  length
    (fold_left
       (fun out spM => alter (fun slot => middleStep config it slot spM)
                         (outputIndex it) out)
       middles out)
  = length out.
Proof.
  revert out. induction middles as [|spM rest IH]; intros out; simpl;
    [reflexivity|].
  now rewrite IH, length_alter.
Qed.

Lemma region_without_doublets it (middles : list (InternalSpacePoint T))
    (out : list (list (InternalSeed T))) :
  (forall spM, spM ∈ middles ->
     findCompatBottomSP config (it_grid it) (bottomBinIndices it) spM = []
     \/ findCompatTopSP config (it_grid it) (topBinIndices it) spM = []) ->
  fold_left
    (fun out spM => alter (fun slot => middleStep config it slot spM)
                      (outputIndex it) out)
    middles out
  = out.
Proof.
  revert out. induction middles as [|spM rest IH]; intros out Hnone; simpl;
    [reflexivity|].
  rewrite IH by (intros m Hm; apply Hnone; now right).
  apply list_eq. intros j. rewrite list_lookup_alter.
  destruct (decide (outputIndex it = j)) as [->|]; [|reflexivity].
  destruct (out !! j) as [slot|]; [|reflexivity]. simpl.
  rewrite middleStep_without_doublet; [reflexivity|].
  apply Hnone. now left.
Qed.

(** X10.  When no middle point of the current bin has both a compatible
    bottom and a compatible top, the seed filter is not called and the
    state is returned as it was. *)
Theorem nothing_written_without_doublets it state :
  (forall spM, spM ∈ currentBin it ->
     findCompatBottomSP config (it_grid it) (bottomBinIndices it) spM = []
     \/ findCompatTopSP config (it_grid it) (topBinIndices it) spM = []) ->
  createSeedsForRegion config it state = state.
Proof.
  intros Hnone. unfold createSeedsForRegion.
  rewrite region_without_doublets by exact Hnone. now destruct state.
Qed.

(** X11.  [createSeedsForRegion] writes to the output slot of its region
    only: every other slot, the number of slots, the index and the bin
    finders are as before. *)
Theorem createSeedsForRegion_frame it state :
  let state' := createSeedsForRegion config it state in
  (forall j, j <> outputIndex it ->
             outputVec state' !! j = outputVec state !! j)
  /\ length (outputVec state') = length (outputVec state)
  /\ binnedSP state' = binnedSP state
  /\ bottomBinFinder state' = bottomBinFinder state
  /\ topBinFinder state' = topBinFinder state.
Proof.
  cbv zeta. unfold createSeedsForRegion. simpl.
  split; [|split; [apply region_length | repeat split]].
  intros j Hj. now apply region_other_slots.
Qed.

(** X12.  Two regions with different output slots can be scanned in
    either order: the resulting states are equal. *)
Theorem regions_commute it1 it2 state :
  outputIndex it1 <> outputIndex it2 ->
  createSeedsForRegion config it1 (createSeedsForRegion config it2 state)
  = createSeedsForRegion config it2 (createSeedsForRegion config it1 state).
Proof.
  intros Hne. unfold createSeedsForRegion. simpl. f_equal.
  apply list_eq. intros j.
  destruct (decide (j = outputIndex it1)) as [->|H1].
  - rewrite region_slot.
    rewrite (region_other_slots config it2) by exact Hne.
    rewrite (region_other_slots config it2) by exact Hne.
    now rewrite region_slot.
  - rewrite (region_other_slots config it1) by exact H1.
    destruct (decide (j = outputIndex it2)) as [->|H2].
    + rewrite !region_slot.
      rewrite (region_other_slots config it1) by congruence. reflexivity.
    + rewrite !(region_other_slots config it2) by exact H2.
      now rewrite (region_other_slots config it1) by exact H1.
Qed.

(** X22.  With a seed filter whose [filterSeeds_1SpFixed] only appends
    to the slot it is given, the seeds a slot held before a region is
    scanned are still there afterwards, in front. *)
Theorem earlier_seeds_are_kept it state (slot : list (InternalSeed T)) :
  (forall seeds old,
     old `prefix_of` filterSeeds_1SpFixed (seedFilter config) seeds old) ->
  outputVec state !! outputIndex it = Some slot ->
  exists slot',
    outputVec (createSeedsForRegion config it state) !! outputIndex it
    = Some slot'
    /\ slot `prefix_of` slot'.
Proof.
  intros Happ Hslot. unfold createSeedsForRegion. simpl.
  rewrite region_slot, Hslot. simpl. eexists. split; [reflexivity|].
  clear Hslot. generalize (currentBin it). intros middles. revert slot.
  induction middles as [|spM rest IH]; intros slot; simpl; [reflexivity|].
  transitivity (middleStep config it slot spM); [|apply IH].
  unfold middleStep.
  destruct (findCompatBottomSP _ _ _ _); [reflexivity|].
  destruct (findCompatTopSP _ _ _ _); [reflexivity|]. apply Happ.
Qed.

End RegionCoverage.

(** ** More on the triplet builder *)

Section TripletCoverage.
Context {T : Type}.
Variable config : SeedfinderConfig T.
Implicit Types (lb lt : LinCircle).
Implicit Types (tops : list (InternalSpacePoint T * LinCircle)).

(** X13.  The three vectors filled for a bottom always have the same
    length, and the recorded tops are compatible tops in their original
    order. *)
Theorem scratch_vectors_aligned rM covrM covzM lb tops :
  let scratch := topLoop config rM covrM covzM lb tops in
  length (curvatures scratch) = length (topSpVec scratch)
  /\ length (impactParameters scratch) = length (topSpVec scratch)
  /\ topSpVec scratch `sublist_of` tops.*1.
Proof.
  cbv zeta. rewrite topLoop_recorded. cbv zeta. simpl.
  rewrite !length_fmap. split; [reflexivity|]. split; [reflexivity|].
  apply fmap_sublist, sublist_filter.
Qed.

Lemma curvature_squared lb lt :
  curvatureOf lb lt * curvatureOf lb lt
  = lineB lb lt * lineB lb lt / lineS2 lb lt.
Proof.
  unfold curvatureOf. pose proof (lineS2_pos lb lt) as HS.
  pose proof (sqrt_lt_R0 _ HS) as Hs.
  rewrite <- (sqrt_sqrt (lineS2 lb lt)) at 3 by lra.
  field. lra.
Qed.

(** X14.  Every recorded curvature [c], the inverse of the helix
    diameter, has [c^2 * minHelixDiameter2 <= 1], and every recorded
    impact parameter is non-negative. *)
Theorem recorded_values_bounded rM covrM covzM lb tops :
  let scratch := topLoop config rM covrM covzM lb tops in
  Forall (fun c => c * c * minHelixDiameter2 config <= 1) (curvatures scratch)
  /\ Forall (fun Im => 0 <= Im) (impactParameters scratch).
Proof.
  cbv zeta. rewrite topLoop_recorded. cbv zeta. simpl.
  split; apply Forall_fmap, Forall_forall; intros t Ht; simpl.
  - apply list_elem_of_filter in Ht as [Hacc _].
    apply accepted_inv in Hacc as (_ & _ & Hh & _).
    rewrite curvature_squared.
    pose proof (lineS2_pos lb t.2) as HS.
    apply Rmult_le_reg_r with (lineS2 lb t.2); [exact HS|].
    replace (lineB lb t.2 * lineB lb t.2 / lineS2 lb t.2
             * minHelixDiameter2 config * lineS2 lb t.2)
      with (lineB lb t.2 * lineB lb t.2 * minHelixDiameter2 config)
      by (field; lra).
    lra.
  - unfold impactOf. apply Rabs_pos.
Qed.

(** X15.  With a negative [impactMax] no pair is ever accepted: no top is
    recorded and no bottom contributes a seed. *)
Theorem negative_impactMax_accepts_nothing
    (spM spB : InternalSpacePoint T) lb tops seedsPerSpM :
  impactMax config < 0 ->
  topSpVec (topLoop config (radius spM) (covr spM) (covz spM) lb tops) = []
  /\ bottomStep config spM tops seedsPerSpM (spB, lb) = seedsPerSpM.
Proof.
  intros Hneg.
  assert (E : filter (recorded config (radius spM) (covr spM) (covz spM) lb)
                tops = []).
  { apply filter_none, Forall_forall. intros t _ Hacc.
    apply accepted_inv in Hacc as (_ & _ & _ & Him).
    pose proof (Rabs_pos ((lineA lb t.2 - lineB lb t.2 * radius spM)
                          * radius spM)).
    unfold impactOf in Him. lra. }
  unfold bottomStep. simpl. rewrite topLoop_recorded. cbv zeta. simpl.
  now rewrite E.
Qed.


End TripletCoverage.

(** ** More on the conformal transformation *)

Section TransformCoverage.
Context {T : Type} `{SpacePoint T}.
Implicit Types (m p b t : InternalSpacePoint T).
Implicit Types (vec : list (InternalSpacePoint T)).

Lemma sum_squares_nonneg (a b : R) : 0 <= a * a + b * b.
Proof. nra. Qed.

(** X17.  Take a middle point off the beam axis, a bottom and a top on
    the line from the beam axis through the middle point, neither of them
    straight above or below the middle point, and with images of distinct
    [U] (the triplet passes the [dU == 0] guard).  Then both conformal
    images have [V = 0], and the triplet is straight: its curvature and
    its impact parameter are 0. *)
Theorem aligned_triplet_is_straight m b t :
  radius m <> 0 ->
  (isp_x b - isp_x m) * (isp_x b - isp_x m)
  + (isp_y b - isp_y m) * (isp_y b - isp_y m) <> 0 ->
  (isp_x t - isp_x m) * (isp_x t - isp_x m)
  + (isp_y t - isp_y m) * (isp_y t - isp_y m) <> 0 ->
  U (transformOne m false t) - U (transformOne m true b) <> 0 ->
  radiallyAligned m b -> radiallyAligned m t ->
  V (transformOne m true b) = 0
  /\ V (transformOne m false t) = 0
  /\ curvatureOf (transformOne m true b) (transformOne m false t) = 0
  /\ impactOf (radius m) (transformOne m true b) (transformOne m false t) = 0.
Proof.
  intros Hr HDb HDt HdU (sb & Hbx & Hby) (st & Htx & Hty).
  assert (Vb : V (transformOne m true b) = 0).
  { simpl. rewrite Hbx, Hby. field. split; [|exact Hr].
    rewrite <- Hbx, <- Hby. exact HDb. }
  assert (Vt : V (transformOne m false t) = 0).
  { simpl. rewrite Htx, Hty. field. split; [|exact Hr].
    rewrite <- Htx, <- Hty. exact HDt. }
  assert (HA : lineA (transformOne m true b) (transformOne m false t) = 0).
  { unfold lineA. rewrite Vb, Vt. field. exact HdU. }
  assert (HB : lineB (transformOne m true b) (transformOne m false t) = 0).
  { unfold lineB. rewrite HA, Vb. ring. }
  assert (HS : lineS2 (transformOne m true b) (transformOne m false t) = 1).
  { unfold lineS2. rewrite HA. ring. }
  split; [exact Vb|]. split; [exact Vt|]. split.
  - unfold curvatureOf. rewrite HB, HS, sqrt_1. field.
  - unfold impactOf. rewrite HA, HB.
    replace ((0 - 0 * radius m) * radius m) with 0 by ring.
    apply Rabs_R0.
Qed.

(** X18.  For a middle point built by [initState] with a non-zero radius
    and a partner that is not straight above or below it, the conformal
    image [(U, V)] of the partner has the squared norm [iDeltaR^2], which
    is the inverse of the squared transverse distance. *)
Theorem conformal_image_norm (config : SeedfinderConfig T)
    (covTool : T -> R -> R -> R -> R * R) (spM : T) bottom p :
  let m := internalOf config covTool spM in
  let deltaR2 := (isp_x p - isp_x m) * (isp_x p - isp_x m)
                 + (isp_y p - isp_y m) * (isp_y p - isp_y m) in
  let l := transformOne m bottom p in
  radius m <> 0 -> deltaR2 <> 0 ->
  U l * U l + V l * V l = iDeltaR l * iDeltaR l
  /\ iDeltaR l * iDeltaR l = 1 / deltaR2.
Proof.
  cbv zeta. set (m := internalOf config covTool spM). intros Hr HD.
  assert (Hrr : radius m * radius m
                = isp_x m * isp_x m + isp_y m * isp_y m).
  { unfold m. simpl. apply sqrt_sqrt, sum_squares_nonneg. }
  set (D := (isp_x p - isp_x m) * (isp_x p - isp_x m)
            + (isp_y p - isp_y m) * (isp_y p - isp_y m)) in *.
  assert (HDpos : 0 < D).
  { pose proof (sum_squares_nonneg (isp_x p - isp_x m) (isp_y p - isp_y m))
      as Hnn.
    fold D in Hnn. lra. }
  assert (Hi : iDeltaR (transformOne m bottom p)
               * iDeltaR (transformOne m bottom p) = 1 / D).
  { unfold transformOne. cbv zeta. cbn [iDeltaR]. fold D.
    apply sqrt_sqrt. unfold Rdiv. rewrite Rmult_1_l.
    apply Rlt_le, Rinv_0_lt_compat, HDpos. }
  split; [|exact Hi]. rewrite Hi.
  unfold transformOne. cbv zeta. cbn [U V]. fold D.
  set (dx := isp_x p - isp_x m) in *. set (dy := isp_y p - isp_y m) in *.
  set (c := isp_x m / radius m). set (sn := isp_y m / radius m).
  assert (Hcs : c * c + sn * sn = 1).
  { unfold c, sn.
    replace (isp_x m / radius m * (isp_x m / radius m)
             + isp_y m / radius m * (isp_y m / radius m))
      with ((isp_x m * isp_x m + isp_y m * isp_y m)
            / (radius m * radius m)) by (field; exact Hr).
    rewrite <- Hrr. field. exact Hr. }
  replace ((dx * c + dy * sn) * (1 / D) * ((dx * c + dy * sn) * (1 / D))
           + (dy * c - dx * sn) * (1 / D) * ((dy * c - dx * sn) * (1 / D)))
    with ((dx * dx + dy * dy) * (c * c + sn * sn) * (1 / D) * (1 / D))
    by ring.
  rewrite Hcs. fold D. field. lra.
Qed.

(** X19.  [transformCoordinates] never clears its output vector: what the
    vector held stays in front, one record is added per partner, and
    transforming a concatenation is transforming its parts in turn. *)
Theorem transformCoordinates_appends vec vec' m bottom
    (linCircleVec : list LinCircle) :
  transformCoordinates vec m bottom linCircleVec
  = linCircleVec ++ transformCoordinates vec m bottom []
  /\ length (transformCoordinates vec m bottom linCircleVec)
     = (length linCircleVec + length vec)%nat
  /\ transformCoordinates (vec ++ vec') m bottom linCircleVec
     = transformCoordinates vec' m bottom
         (transformCoordinates vec m bottom linCircleVec).
Proof.
  rewrite !transformCoordinates_app. simpl.
  split; [reflexivity|]. split.
  - now rewrite length_app, length_map.
  - now rewrite map_app, app_assoc.
Qed.

(** X20.  For a middle point off the beam axis and a partner that is
    not straight above or below it, the [bottom] flag only mirrors the
    polar angle: the records of the partner taken as bottom and as top
    share [U], [V], [Er] and [iDeltaR], have opposite [cotTheta], and
    their z-origins are symmetric about the z of the middle point. *)
Theorem bottom_flag_mirrors_cotTheta m p :
  let lb := transformOne m true p in
  let lt := transformOne m false p in
  radius m <> 0 ->
  (isp_x p - isp_x m) * (isp_x p - isp_x m)
  + (isp_y p - isp_y m) * (isp_y p - isp_y m) <> 0 ->
  U lb = U lt /\ V lb = V lt /\ Er lb = Er lt /\ iDeltaR lb = iDeltaR lt
  /\ cotTheta lb = - cotTheta lt
  /\ Zo lb + Zo lt = 2 * isp_z m.
Proof.
  cbv zeta. intros Hr HD. unfold transformOne. rewrite !bottomFactor_sign.
  cbn [U V Er iDeltaR cotTheta Zo kindOfFlag partnerSign].
  repeat split; ring.
Qed.

End TransformCoverage.

(** ** More on construction *)

Section ConstructionCoverage.
Context {T : Type}.


End ConstructionCoverage.

(** ** The further properties at the concrete setting *)

Section ScenarioCoverage.
Import Scenario ScenarioRegions.

Lemma initState_globalBin {T} `{SpacePoint T} (config : SeedfinderConfig T)
    binning covTool (spRange : list (option T)) bbf tbf :
  globalBin (binnedSP (initState config binning covTool spRange bbf tbf))
  = binning_globalBin (binning (gridConfOf config)).
Proof.
  unfold initState. cbv zeta. simpl. rewrite flushRBins_join.
  match goal with
  | |- context [globalBin (fold_left gridPush ?l0 ?g0)] =>
      destruct (gridAt_fold_push l0 g0 0%nat) as (_ & -> & _)
  end.
  reflexivity.
Qed.

Lemma scenario_radius (r : R) :
  0 <= r -> radius (internalOf scenarioConfig noCovariance (onAxis r)) = r.
Proof.
  intros Hr. simpl.
  replace ((r - 0) * (r - 0) + (0 - 0) * (0 - 0)) with (r * r) by ring.
  now apply sqrt_square.
Qed.

Lemma scenario_numRBins : numRBins scenarioConfig = 200%nat.
Proof.
  unfold numRBins, norm2D, to_size_t. simpl.
  replace (0 * 0 + 0 * 0) with 0 by ring. rewrite sqrt_0.
  rewrite (Int_part_between _ 200%Z) by (simpl; lra). reflexivity.
Qed.

Lemma inner_point_indexed :
  internalOf scenarioConfig noCovariance (onAxis 30)
  ∈ gridAt (binnedSP (initState scenarioConfig oneCell noCovariance
                        [Some (onAxis 30)] selfOnly selfOnly)) 0.
Proof.
  apply (indexed_iff scenarioConfig oneCell noCovariance).
  - left.
  - apply onAxis_inRegion. lra.
  - split.
    + unfold rIndexOf, to_size_t. rewrite scenario_numRBins.
      rewrite scenario_radius by lra.
      rewrite (Int_part_between _ 30%Z) by (simpl; lra). simpl. lia.
    + now rewrite initState_globalBin.
Qed.

Lemma indexed_point_on_track :
  exists sp,
    Some sp ∈ [Some (onAxis 30)]
    /\ internalOf scenarioConfig noCovariance (onAxis 30)
       = internalOf scenarioConfig noCovariance sp
    /\ zMin scenarioConfig
       <= isp_z (internalOf scenarioConfig noCovariance (onAxis 30))
       <= zMax scenarioConfig
    /\ phiMin scenarioConfig <= atan2 (sp_y sp) (sp_x sp)
       <= phiMax scenarioConfig
    /\ 0 <= radius (internalOf scenarioConfig noCovariance (onAxis 30))
       < rMax scenarioConfig + norm2D (beamPos scenarioConfig)
    /\ 0%nat
       = globalBin
           (binnedSP (initState scenarioConfig oneCell noCovariance
                        [Some (onAxis 30)] selfOnly selfOnly))
           (phi (internalOf scenarioConfig noCovariance (onAxis 30)))
           (isp_z (internalOf scenarioConfig noCovariance (onAxis 30))).
Proof.
  apply (indexed_points_lie_in_region scenarioConfig oneCell noCovariance
           [Some (onAxis 30)] selfOnly selfOnly 0%nat).
  exact inner_point_indexed.
Defined.

Lemma reordered_input_on_track :
  gridAt (binnedSP (initState scenarioConfig oneCell noCovariance
                      [Some (onAxis 30); None] selfOnly selfOnly)) 0
  ≡ₚ filter
       (fun isp =>
          globalBin
            (binnedSP (initState scenarioConfig oneCell noCovariance
                         [Some (onAxis 30); None] selfOnly selfOnly))
            (phi isp) (isp_z isp) = 0%nat)
       (indexedPoints scenarioConfig noCovariance [Some (onAxis 30); None])
  /\ gridAt (binnedSP (initState scenarioConfig oneCell noCovariance
                         [Some (onAxis 30); None] selfOnly selfOnly)) 0
     ≡ₚ gridAt (binnedSP (initState scenarioConfig oneCell noCovariance
                            [None; Some (onAxis 30)] selfOnly selfOnly)) 0.
Proof.
  apply (bins_up_to_input_order scenarioConfig oneCell noCovariance
           [Some (onAxis 30); None] [None; Some (onAxis 30)]
           selfOnly selfOnly 0%nat).
  apply perm_swap.
Defined.

Lemma tiny_region_has_no_index :
  gridAt (binnedSP (initState (constructed (userConfig 5 270 400 0.5 (0, 0)))
                      oneCell noCovariance [Some (onAxis 0.2)]
                      selfOnly selfOnly)) 0
  = [].
Proof.
  apply (no_bucket_no_index (constructed (userConfig 5 270 400 0.5 (0, 0)))
           oneCell noCovariance [Some (onAxis 0.2)] selfOnly selfOnly 0%nat).
  unfold norm2D. simpl.
  replace (0 * 0 + 0 * 0) with 0 by ring. rewrite sqrt_0. lra.
Defined.

Lemma partners_ordered_on_track :
  (forall b,
     b ∈ findCompatBottomSP scenarioConfig trackGrid [0%nat]
           (onAxisInternal 80) ->
     radius b < radius (onAxisInternal 80))
  /\ (forall t,
        t ∈ findCompatTopSP scenarioConfig trackGrid [0%nat]
              (onAxisInternal 80) ->
        radius (onAxisInternal 80) < radius t)
  /\ (onAxisInternal 80
      ∉ findCompatBottomSP scenarioConfig trackGrid [0%nat]
          (onAxisInternal 80))
  /\ (onAxisInternal 80
      ∉ findCompatTopSP scenarioConfig trackGrid [0%nat] (onAxisInternal 80))
  /\ (forall p,
        p ∈ findCompatBottomSP scenarioConfig trackGrid [0%nat]
              (onAxisInternal 80) ->
        p ∉ findCompatTopSP scenarioConfig trackGrid [0%nat]
              (onAxisInternal 80)).
Proof.
  apply (partners_strictly_ordered scenarioConfig trackGrid [0%nat] [0%nat]
           (onAxisInternal 80)).
  simpl. lra.
Defined.

Lemma swapped_bounds_keep_nothing :
  findCompatBottomSP badConfig trackGrid [0%nat] (onAxisInternal 80) = []
  /\ findCompatTopSP badConfig trackGrid [0%nat] (onAxisInternal 80) = [].
Proof.
  apply (empty_cut_range_keeps_nothing badConfig trackGrid [0%nat] [0%nat]
           (onAxisInternal 80)).
  left. simpl. lra.
Defined.

Lemma tiltedGrid_bin :
  gridAt tiltedGrid 0 = [atHeight 30 200; atHeight 80 205; atHeight 180 215].
Proof. unfold gridAt, tiltedGrid. simpl. now rewrite lookup_singleton_eq. Qed.

Lemma tilted_track_no_bottom (spM : InternalSpacePoint Point3) :
  spM ∈ currentBin tiltedIterator ->
  findCompatBottomSP scenarioConfig (it_grid tiltedIterator)
    (bottomBinIndices tiltedIterator) spM = [].
Proof.
  intros Hm. apply nil_of_no_element. intros b Hb.
  rewrite findCompatBottomSP_cells in Hb.
  apply list_elem_of_bind in Hb as (k & Hb & Hk).
  apply bottomBinLoop_sound in Hb as [Hin Hc].
  simpl in Hk. apply list_elem_of_singleton in Hk as ->.
  simpl in Hm, Hin. rewrite tiltedGrid_bin in Hm, Hin.
  destruct Hc as [Hc|Hc];
    [|unfold selfDoublet in Hc; simpl in Hc; lra].
  unfold bottomCompatible in Hc.
  repeat (apply elem_of_cons in Hm as [->|Hm]);
    [| | |now apply elem_of_nil in Hm];
    repeat (apply elem_of_cons in Hin as [->|Hin]);
    try (now apply elem_of_nil in Hin);
    simpl in Hc; lra.
Qed.

Lemma tilted_region_writes_nothing :
  createSeedsForRegion scenarioConfig tiltedIterator (stateWith [[someSeed]])
  = stateWith [[someSeed]].
Proof.
  apply (nothing_written_without_doublets scenarioConfig tiltedIterator
           (stateWith [[someSeed]])).
  intros spM Hm. left. now apply tilted_track_no_bottom.
Defined.

Lemma two_regions_commute_on_track :
  createSeedsForRegion scenarioConfig trackIterator
    (createSeedsForRegion scenarioConfig secondIterator (stateWith [[]; []]))
  = createSeedsForRegion scenarioConfig secondIterator
      (createSeedsForRegion scenarioConfig trackIterator
         (stateWith [[]; []])).
Proof.
  apply (regions_commute scenarioConfig trackIterator secondIterator
           (stateWith [[]; []])).
  simpl. lia.
Defined.

Lemma negative_impactMax_on_track :
  topSpVec
    (topLoop noImpactConfig (radius (onAxisInternal 80))
       (covr (onAxisInternal 80)) (covz (onAxisInternal 80))
       (transformOne (onAxisInternal 80) true (onAxisInternal 30))
       [(onAxisInternal 180,
         transformOne (onAxisInternal 80) false (onAxisInternal 180))])
  = []
  /\ bottomStep noImpactConfig (onAxisInternal 80)
       [(onAxisInternal 180,
         transformOne (onAxisInternal 80) false (onAxisInternal 180))]
       []
       (onAxisInternal 30,
        transformOne (onAxisInternal 80) true (onAxisInternal 30))
     = [].
Proof.
  apply (negative_impactMax_accepts_nothing noImpactConfig
           (onAxisInternal 80) (onAxisInternal 30)).
  simpl. lra.
Defined.


Lemma straight_track_is_straight :
  V (transformOne (onAxisInternal 80) true (onAxisInternal 30)) = 0
  /\ V (transformOne (onAxisInternal 80) false (onAxisInternal 180)) = 0
  /\ curvatureOf (transformOne (onAxisInternal 80) true (onAxisInternal 30))
       (transformOne (onAxisInternal 80) false (onAxisInternal 180)) = 0
  /\ impactOf (radius (onAxisInternal 80))
       (transformOne (onAxisInternal 80) true (onAxisInternal 30))
       (transformOne (onAxisInternal 80) false (onAxisInternal 180)) = 0.
Proof.
  apply (aligned_triplet_is_straight (onAxisInternal 80) (onAxisInternal 30)
           (onAxisInternal 180)).
  - simpl. lra.
  - simpl. lra.
  - simpl. lra.
  - simpl. lra.
  - exists (30 / 80). simpl. split; lra.
  - exists (180 / 80). simpl. split; lra.
Defined.

Lemma flag_mirror_on_track :
  U (transformOne (onAxisInternal 80) true (onAxisInternal 30))
  = U (transformOne (onAxisInternal 80) false (onAxisInternal 30))
  /\ V (transformOne (onAxisInternal 80) true (onAxisInternal 30))
     = V (transformOne (onAxisInternal 80) false (onAxisInternal 30))
  /\ Er (transformOne (onAxisInternal 80) true (onAxisInternal 30))
     = Er (transformOne (onAxisInternal 80) false (onAxisInternal 30))
  /\ iDeltaR (transformOne (onAxisInternal 80) true (onAxisInternal 30))
     = iDeltaR (transformOne (onAxisInternal 80) false (onAxisInternal 30))
  /\ cotTheta (transformOne (onAxisInternal 80) true (onAxisInternal 30))
     = - cotTheta (transformOne (onAxisInternal 80) false (onAxisInternal 30))
  /\ Zo (transformOne (onAxisInternal 80) true (onAxisInternal 30))
     + Zo (transformOne (onAxisInternal 80) false (onAxisInternal 30))
     = 2 * isp_z (onAxisInternal 80).
Proof.
  apply (bottom_flag_mirrors_cotTheta (onAxisInternal 80)
           (onAxisInternal 30)).
  - simpl. lra.
  - simpl. lra.
Defined.

Lemma conformal_norm_on_track :
  U (transformOne (internalOf scenarioConfig noCovariance (onAxis 80)) true
       (onAxisInternal 30))
  * U (transformOne (internalOf scenarioConfig noCovariance (onAxis 80)) true
         (onAxisInternal 30))
  + V (transformOne (internalOf scenarioConfig noCovariance (onAxis 80)) true
         (onAxisInternal 30))
    * V (transformOne (internalOf scenarioConfig noCovariance (onAxis 80))
           true (onAxisInternal 30))
  = iDeltaR (transformOne (internalOf scenarioConfig noCovariance (onAxis 80))
               true (onAxisInternal 30))
    * iDeltaR (transformOne
                 (internalOf scenarioConfig noCovariance (onAxis 80)) true
                 (onAxisInternal 30)).
Proof.
  apply (conformal_image_norm scenarioConfig noCovariance (onAxis 80) true
           (onAxisInternal 30)).
  - rewrite scenario_radius by lra. lra.
  - simpl.
    replace ((80 - 0) * (80 - 0) + (0 - 0) * (0 - 0)) with (80 * 80) by ring.
    apply Rgt_not_eq. lra.
Defined.


Lemma earlier_seed_kept_on_track :
  exists slot',
    outputVec (createSeedsForRegion scenarioConfig trackIterator
                 (stateWith [[someSeed]])) !! outputIndex trackIterator
    = Some slot'
    /\ [someSeed] `prefix_of` slot'.
Proof.
  apply (earlier_seeds_are_kept scenarioConfig trackIterator
           (stateWith [[someSeed]]) [someSeed]).
  - intros seeds old. simpl. now apply prefix_app_r.
  - reflexivity.
Defined.

Lemma scenario_bucket (r : R) (z : Z) :
  IZR z <= r < IZR z + 1 -> 0 <= r ->
  rIndexOf (internalOf scenarioConfig noCovariance (onAxis r)) = Z.to_nat z.
Proof.
  intros Hz Hr. unfold rIndexOf, to_size_t. rewrite scenario_radius by exact Hr.
  now rewrite (Int_part_between r z).
Qed.

Lemma track_points_origin (a : InternalSpacePoint Point3) :
  a ∈ indexedPoints scenarioConfig noCovariance
        [Some (onAxis 30); Some (onAxis 80); Some (onAxis 180)] ->
  (a = internalOf scenarioConfig noCovariance (onAxis 30)
   /\ rIndexOf a = 30%nat)
  \/ (a = internalOf scenarioConfig noCovariance (onAxis 80)
      /\ rIndexOf a = 80%nat)
  \/ (a = internalOf scenarioConfig noCovariance (onAxis 180)
      /\ rIndexOf a = 180%nat).
Proof.
  intros Ha.
  apply (points_origin scenarioConfig noCovariance) in Ha
    as (sp & Hsp & -> & _).
  repeat (apply elem_of_cons in Hsp as [[= ->]|Hsp]);
    [| | |now apply elem_of_nil in Hsp].
  - left. split; [reflexivity|].
    rewrite (scenario_bucket 30 30) by (simpl; lra). reflexivity.
  - right; left. split; [reflexivity|].
    rewrite (scenario_bucket 80 80) by (simpl; lra). reflexivity.
  - right; right. split; [reflexivity|].
    rewrite (scenario_bucket 180 180) by (simpl; lra). reflexivity.
Qed.

Lemma track_index_is_sorted :
  radiusSorted
    (gridAt (binnedSP (initState scenarioConfig oneCell noCovariance
                         [Some (onAxis 30); Some (onAxis 80);
                          Some (onAxis 180)] selfOnly selfOnly)) 0).
Proof.
  generalize 0%nat.
  apply (uniform_buckets_give_exact_doublets scenarioConfig oneCell
           noCovariance
           [Some (onAxis 30); Some (onAxis 80); Some (onAxis 180)]
           selfOnly selfOnly [0%nat] [0%nat] (onAxisInternal 80)).
  { simpl. lra. }
  intros a b Ha Hb Hidx.
  apply track_points_origin in Ha, Hb.
  destruct Ha as [[-> Ia]|[[-> Ia]|[-> Ia]]],
           Hb as [[-> Ib]|[[-> Ib]|[-> Ib]]];
    try reflexivity; rewrite Ia, Ib in Hidx; discriminate.
Defined.

End ScenarioCoverage.
